(** * veBTC dashboard: incremental synchronisation and aggregation

    A shallow embedding of [vebtc.py]: record identity ([get_unique_id]),
    the paginated incremental fetcher ([fetch_incremental]), the lock and
    vote normalisers and the daily / distribution aggregation of
    [parse_data], and the orchestration of the [__main__] block.

    Conventions of the embedding.
    - A decoded JSON value is a [json]; a Python [dict] with string keys is
      an association list read with [dict_get] (first binding wins).
    - Python [float]s are modelled by exact rationals [Q]: rounding and the
      non-finite values are outside the model.
    - Text is a [string] of 8-bit characters; [len], slicing and [lower]
      are those of Python on ASCII text.
    - A [try: ... except Exception: continue] body is written in the option
      monad: [None] is "this item is skipped", whether by [continue] or by a
      raised exception.
    - An exception that nothing catches ends the run: [parse_data] returns
      [None] where it raises, and [main] then has no tables to hand over.
    - Library calls whose behaviour is fixed by Python and not by this
      program (date parsing, numeric parsing of text, [repr]) are the fields
      of the interface [Builtins]. *)

From Stdlib Require Import Ascii String ZArith QArith Lqa.
From stdpp Require Import base option list strings gmap sorting pretty.

Set Warnings "-register-all,-clear-no-such-hyp".

Local Open Scope string_scope.
Local Open Scope list_scope.
Local Open Scope Z_scope.

(** ** JSON values *)

Inductive json : Type :=
| JNull
| JBool (b : bool)
| JInt (z : Z)
| JFloat (q : Q)
| JStr (s : string)
| JArr (l : list json)
| JObj (d : list (string * json)).

(** A RawItem: the mapping held by a JSON object. *)
Definition dict := list (string * json).

(** [d.get(k)]: [None] plays Python's [None] for an absent key. *)
Fixpoint dict_get (k : string) (d : dict) : option json :=
  match d with
  | [] => None
  | (k', v) :: d' => if String.eqb k k' then Some v else dict_get k d'
  end.

(** [d.get(k, default)]. *)
Definition dict_get_default (k : string) (dflt : json) (d : dict) : json :=
  match dict_get k d with
  | Some v => v
  | None => dflt
  end.

(** ** Calendar values *)

Record date : Type := mkdate { year : Z; month : Z; day : Z }.

Record datetime : Type :=
  mkdatetime { dt_date : date; hour : Z; minute : Z; second : Z }.

(** Python compares dates and datetimes field by field, in this order. *)
Definition date_key (d : date) : list Z := [year d; month d; day d].

Definition datetime_key (t : datetime) : list Z :=
  date_key (dt_date t) ++ [hour t; minute t; second t].

Fixpoint lex_le (a b : list Z) : bool :=
  match a, b with
  | [], _ => true
  | _ :: _, [] => false
  | x :: a', y :: b' => (x <? y) || ((x =? y) && lex_le a' b')
  end.

Definition date_le (a b : date) : Prop := lex_le (date_key a) (date_key b) = true.

Definition datetime_le (a b : datetime) : Prop :=
  lex_le (datetime_key a) (datetime_key b) = true.

#[global] Instance date_eq_dec : EqDecision date.
Proof. solve_decision. Defined.

#[global] Instance date_le_dec : RelDecision date_le.
Proof. intros a b. unfold date_le. apply _. Defined.

#[global] Instance datetime_le_dec : RelDecision datetime_le.
Proof. intros a b. unfold datetime_le. apply _. Defined.

(** ** Python library calls used by the program *)

Class Builtins : Type := {
  (** [datetime.strptime(s, "%Y-%m-%dT%H:%M:%S")]; [None] when it raises. *)
  strptime_iso : string → option datetime;
  (** [datetime.fromtimestamp(n)]; [None] when it raises. *)
  fromtimestamp : Z → option datetime;
  (** [float(s)] on text; [None] when it raises. *)
  float_of_str : string → option Q;
  (** [int(s)] on text; [None] when it raises. *)
  int_of_str : string → option Z;
  (** [int(s, 16)] on text; [None] when it raises. *)
  int_of_hex : string → option Z;
  (** [str(v)] for floats, lists and dicts. *)
  repr_of : json → string;
  (** [f"{x:.2f}"]. *)
  format_2f : Q → string;
  (** [f"{x:,.2f}"]. *)
  format_comma_2f : Q → string;
}.

Section Program.
Context `{B : Builtins}.

(** Python truthiness of a value; [None] (absent) is falsy. *)
Definition truthy (v : json) : bool :=
  match v with
  | JNull => false
  | JBool b => b
  | JInt z => negb (z =? 0)
  | JFloat q => negb (Qeq_bool q 0)
  | JStr s => negb (String.eqb s "")
  | JArr l => match l with [] => false | _ => true end
  | JObj d => match d with [] => false | _ => true end
  end.

Definition truthy_opt (o : option json) : bool :=
  match o with
  | Some v => truthy v
  | None => false
  end.

(** [a or b] on the results of [dict.get]. *)
Definition py_or (a b : option json) : option json :=
  if truthy_opt a then a else b.

(** [str(v)], also the conversion applied by an f-string field. *)
Definition py_str (v : json) : string :=
  match v with
  | JNull => "None"
  | JBool true => "True"
  | JBool false => "False"
  | JInt z => pretty z
  | JStr s => s
  | _ => repr_of v
  end.

Definition py_str_opt (o : option json) : string :=
  match o with
  | Some v => py_str v
  | None => "None"
  end.

(** ** Record identity *)

(** [get_unique_id]. *)
Definition get_unique_id (item : dict) : string :=
  let uid := py_or (dict_get "tx_hash" item)
               (py_or (dict_get "transaction_hash" item) (dict_get "hash" item)) in
  let idx := py_str (dict_get_default "index"
                       (dict_get_default "log_index" (JStr "0") item) item) in
  py_str_opt uid +:+ "_" +:+ idx.

(** ** Incremental fetcher *)

(** One decoded page body: [data.get("items", [])] and
    [data.get("next_page_params")] (absent is the empty mapping, which is
    falsy like [None]). *)
Record page : Type := mkpage { items : list dict; next_page_params : dict }.

(** What one [requests.get(...)] / [raise_for_status()] / [.json()] gives:
    an exception or a decoded body. *)
Inductive response : Type :=
| Failed
| Body (pg : page).

(** The remote source: the answer to the [n]-th request (counted from 0)
    made with the given query parameters. *)
Definition remote : Type := nat → gmap string json → response.

(** [params.update(d)]. *)
Definition params_update (params : gmap string json) (d : dict) : gmap string json :=
  list_to_map d ∪ params.

(** The [for item in items] loop of one page, threading [existing_ids],
    [new_items] and [stop_fetching]. *)
Fixpoint scan_page (its : list dict) (existing_ids : gset string)
    (new_items : list dict) (stop_fetching : bool)
    : gset string * list dict * bool :=
  match its with
  | [] => (existing_ids, new_items, stop_fetching)
  | item :: rest =>
      let uid := get_unique_id item in
      if bool_decide (uid ∈ existing_ids) then
        scan_page rest existing_ids new_items true
      else if bool_decide (uid ∉ existing_ids) then
        scan_page rest ({[uid]} ∪ existing_ids) (new_items ++ [item]) stop_fetching
      else
        scan_page rest existing_ids new_items stop_fetching
  end.

(** The [while True] loop. [n] counts the requests already made; the result
    is [new_items] with the total number of requests made, or [None] when
    the fuel does not suffice to reach a [break]. *)
Fixpoint fetch_loop (fuel : nat) (src : remote) (n : nat)
    (params : gmap string json) (existing_ids : gset string)
    (new_items : list dict) : option (list dict * nat) :=
  match fuel with
  | O => None
  | S fuel' =>
      match src n params with
      | Failed => Some (new_items, S n)
      | Body pg =>
          match items pg with
          | [] => Some (new_items, S n)
          | _ :: _ =>
              let '(ids', new', stop_fetching) :=
                scan_page (items pg) existing_ids new_items false in
              if stop_fetching then Some (new', S n)
              else if truthy (JObj (next_page_params pg)) then
                fetch_loop fuel' src (S n)
                  (params_update params (next_page_params pg)) ids' new'
              else Some (new', S n)
          end
      end
  end.

(** [fetch_incremental]. *)
Definition fetch_incremental (fuel : nat) (src : remote)
    (params : gmap string json) (existing_items : list dict)
    : option (list dict * nat) :=
  fetch_loop fuel src 0 params
    (list_to_set (get_unique_id <$> existing_items)) [].

(** ** Text operations *)

(** [s.split(c)[0]]: the text before the first [c]. *)
Fixpoint split_head (c : ascii) (s : string) : string :=
  match s with
  | EmptyString => EmptyString
  | String a t => if Ascii.eqb a c then EmptyString else String a (split_head c t)
  end.

(** [s.replace(c, "")] for a one-character [c]. *)
Fixpoint remove_char (c : ascii) (s : string) : string :=
  match s with
  | EmptyString => EmptyString
  | String a t => if Ascii.eqb a c then remove_char c t else String a (remove_char c t)
  end.

(** [s.replace("0x", "")]: occurrences are removed left to right, without
    rescanning the result. *)
Fixpoint remove_0x (s : string) : string :=
  match s with
  | EmptyString => EmptyString
  | String a t =>
      match t with
      | EmptyString => String a EmptyString
      | String b r =>
          if Ascii.eqb a "0"%char && Ascii.eqb b "x"%char then remove_0x r
          else String a (remove_0x t)
      end
  end.

Fixpoint string_drop (n : nat) (s : string) : string :=
  match n, s with
  | O, _ => s
  | S n', EmptyString => EmptyString
  | S n', String _ t => string_drop n' t
  end.

Fixpoint string_take (n : nat) (s : string) : string :=
  match n, s with
  | O, _ => EmptyString
  | S n', EmptyString => EmptyString
  | S n', String a t => String a (string_take n' t)
  end.

(** [s[a:b]] for [0 <= a <= b]. *)
Definition py_slice (a b : nat) (s : string) : string :=
  string_take (b - a) (string_drop a s).

Definition lower_char (c : ascii) : ascii :=
  let n := N_of_ascii c in
  if ((65 <=? n) && (n <=? 90))%N then ascii_of_N (n + 32) else c.

(** [s.lower()] on ASCII text. *)
Fixpoint lower (s : string) : string :=
  match s with
  | EmptyString => EmptyString
  | String a t => String (lower_char a) (lower t)
  end.

(** The receiver of a [str] method: anything else raises. *)
Definition as_str (v : json) : option string :=
  match v with
  | JStr s => Some s
  | _ => None
  end.

(** ** Numeric conversions *)

(** [float(n)] on an [int] raises [OverflowError] when [n] rounds to 2^1024
    or beyond, that is from 2^1024 - 2^970 on in magnitude. *)
Definition int_too_large (z : Z) : bool := 2 ^ 1024 - 2 ^ 970 <=? Z.abs z.

(** [float(v)]. *)
Definition py_float (v : json) : option Q :=
  match v with
  | JInt z => if int_too_large z then None else Some (inject_Z z)
  | JFloat q => Some q
  | JBool b => Some (if b then 1%Q else 0%Q)
  | JStr s => float_of_str s
  | _ => None
  end.

(** [int(v)]. *)
Definition py_int (v : json) : option Z :=
  match v with
  | JInt z => Some z
  | JFloat q => Some (Z.quot (Qnum q) (Zpos (Qden q)))
  | JBool b => Some (if b then 1 else 0)
  | JStr s => int_of_str s
  | _ => None
  end.

Definition Qltb (x y : Q) : bool := negb (Qle_bool y x).

(** ** Configuration *)

Definition CONTRACT_ADDRESS : string := "0x3D4b1b884A7a1E59fE8589a3296EC8f8cBB6f279".
Definition VOTED_TOPIC_0 : string :=
  "0x452d440efc30dfa14a0ef803ccb55936af860ec6a6960ed27f129bef913f296a".
Definition DEFAULT_DECIMALS : Z := 18.

(** [10 ** DEFAULT_DECIMALS] as a divisor. *)
Definition unit_scale : Q := inject_Z (10 ^ DEFAULT_DECIMALS).

(** [datetime.strptime(ts.split('.')[0].replace('Z', ''), "%Y-%m-%dT%H:%M:%S")]. *)
Definition parse_iso (ts : string) : option datetime :=
  strptime_iso (remove_char "Z"%char (split_head "."%char ts)).

(** ** Lock normalisation *)

Record LockRecord : Type := mkLock {
  l_date : date;
  l_ts : datetime;
  l_amount : Q;
  l_type : string;
  l_sender : string;
  l_cat : string;
  l_order : Z
}.

(** The [if amount < 0.001: ... elif ...] chain: category and order. *)
Definition size_bucket (amount : Q) : string * Z :=
  if Qltb amount (1 # 1000) then ("< 0.001", 1)
  else if Qltb amount (1 # 100) then ("0.001 - 0.01", 2)
  else if Qltb amount (1 # 10) then ("0.01 - 0.1", 3)
  else if Qltb amount 1 then ("0.1 - 1", 4)
  else ("1 and above", 5).

(** [raw_val]: [tx.get("total")], replaced by its ["value"] when a dict. *)
Definition lock_raw_val (tx : dict) : option json :=
  match dict_get "total" tx with
  | Some (JObj d) => dict_get "value" d
  | o => o
  end.

(** [float(raw_val or 0) / (10 ** DEFAULT_DECIMALS)]. *)
Definition lock_amount (tx : dict) : option Q :=
  let raw_val := lock_raw_val tx in
  f ← py_float (if truthy_opt raw_val then default JNull raw_val else JInt 0);
  Some (f / unit_scale)%Q.

(** The value bound to [sender] (any JSON value when ["hash"] holds one). *)
Definition lock_sender_val (tx : dict) : json :=
  let from_obj := dict_get_default "from" (JObj []) tx in
  match from_obj with
  | JObj d => dict_get_default "hash" (JStr (py_str from_obj)) d
  | _ => JStr (py_str from_obj)
  end.

(** [sender] as the receiver of [.lower()]. *)
Definition lock_sender (tx : dict) : option string :=
  as_str (lock_sender_val tx).

(** The instant of a lock: [ts] must be truthy and a [str] to be parsed. *)
Definition lock_instant (tx : dict) : option datetime :=
  ts ← dict_get "timestamp" tx;
  if truthy ts then s ← as_str ts; parse_iso s else None.

(** The body of the [for tx in locks] loop: the record appended, or [None]
    when the item is skipped. *)
Definition lock_of (tx : dict) : option LockRecord :=
  dt ← lock_instant tx;
  amount ← lock_amount tx;
  sender ← lock_sender tx;
  if String.eqb (lower sender) (lower CONTRACT_ADDRESS) then None
  else
    let '(cat, order) := size_bucket amount in
    Some (mkLock (dt_date dt) dt amount "lock" sender cat order).

(** [lock_list] after the loop. *)
Definition lock_list (locks : list dict) : list LockRecord :=
  omap lock_of locks.

(** ** Vote normalisation *)

Record VoteRecord : Type := mkVote {
  v_date : date;
  v_ts : datetime;
  v_voting_power : Q;
  v_total_weight : Q;
  v_voter : string;
  v_type : string
}.

(** The local variables of one iteration of the [for log in votes] loop. *)
Record vote_vars : Type := mkVars {
  weight_val : Q;
  total_weight_val : Q;
  voter_addr : string;
  event_ts : option Z;
  found_weight : bool
}.

Definition vote_vars_init : vote_vars := mkVars 0 0 "Unknown" None false.

(** [name == "..."] for a value read from a parameter. *)
Definition json_is_str (v : json) (s : string) : bool :=
  match v with
  | JStr s' => String.eqb s' s
  | _ => false
  end.

(** The sequence a [for] loop runs over; [None] when the value is not
    iterable. A text yields its characters and a dict its keys. *)
Definition py_iter (v : json) : option (list json) :=
  match v with
  | JArr l => Some l
  | JStr s => Some ((λ c, JStr (String c EmptyString)) <$> list_ascii_of_string s)
  | JObj d => Some ((λ kv, JStr kv.1) <$> d)
  | _ => None
  end.

(** One iteration of [for p in params] (METHOD A). *)
Definition decode_param (st : vote_vars) (p : json) : option vote_vars :=
  match p with
  | JObj dp =>
      let name := dict_get_default "name" (JStr "") dp in
      let val := default JNull (dict_get "value" dp) in
      if json_is_str name "weight" then
        w ← py_float val;
        Some (mkVars w (total_weight_val st) (voter_addr st) (event_ts st) true)
      else if json_is_str name "totalWeight" then
        w ← py_float val;
        Some (mkVars (weight_val st) w (voter_addr st) (event_ts st) (found_weight st))
      else if json_is_str name "voter" then
        Some (mkVars (weight_val st) (total_weight_val st) (py_str val)
                (event_ts st) (found_weight st))
      else if json_is_str name "timestamp" then
        t ← py_int val;
        Some (mkVars (weight_val st) (total_weight_val st) (voter_addr st)
                (Some t) (found_weight st))
      else Some st
  | _ => None
  end.

Fixpoint decode_params (ps : list json) (st : vote_vars) : option vote_vars :=
  match ps with
  | [] => Some st
  | p :: rest => st' ← decode_param st p; decode_params rest st'
  end.

(** The parameters METHOD A runs over: those of [decoded] when it is a
    non-empty dict, none otherwise; [None] when they cannot be iterated. *)
Definition decoded_params (log : dict) : option (list json) :=
  match dict_get "decoded" log with
  | Some (JObj (b :: d)) => py_iter (dict_get_default "parameters" (JArr []) (b :: d))
  | _ => Some []
  end.

(** METHOD A. *)
Definition method_decoded (log : dict) (st : vote_vars) : option vote_vars :=
  ps ← decoded_params log;
  decode_params ps st.

(** METHOD B: runs when no weight was found by METHOD A. *)
Definition method_hex (log : dict) (topics : list json) (st : vote_vars)
    : option vote_vars :=
  if found_weight st then Some st
  else
    data ← as_str (dict_get_default "data" (JStr "") log);
    let data_hex := remove_0x data in
    if (192 <=? String.length data_hex)%nat then
      w ← int_of_hex (py_slice 0 64 data_hex) ≫= (λ n, py_float (JInt n));
      tw ← int_of_hex (py_slice 64 128 data_hex) ≫= (λ n, py_float (JInt n));
      ts ← int_of_hex (py_slice 128 192 data_hex);
      voter ← match topics with
              | _ :: t1 :: _ => t ← as_str t1; Some ("0x" +:+ string_drop 26 t)
              | _ => Some (voter_addr st)
              end;
      Some (mkVars w tw voter (Some ts) true)
    else Some st.

(** The instant read from the item's own [timestamp] or [block_timestamp]. *)
Definition item_instant (log : dict) : option datetime :=
  ts_str ← py_or (dict_get "timestamp" log) (dict_get "block_timestamp" log);
  if truthy ts_str then s ← as_str ts_str; parse_iso s else None.

(** Step 3: the instant of the event. *)
Definition vote_instant (log : dict) (st : vote_vars) : option datetime :=
  match event_ts st with
  | Some t =>
      if negb (t =? 0) && (0 <? t) then fromtimestamp t else item_instant log
  | None => item_instant log
  end.

(** Step 1: the topics of a log whose first topic is the Voted signature. *)
Definition voted_topics (log : dict) : option (list json) :=
  match dict_get_default "topics" (JArr []) log with
  | JArr (t0 :: rest) =>
      if json_is_str t0 VOTED_TOPIC_0 then Some (t0 :: rest) else None
  | _ => None
  end.

(** Steps 1 and 2: the variables after both decoding methods. *)
Definition vote_extract (log : dict) : option vote_vars :=
  topics ← voted_topics log;
  st ← method_decoded log vote_vars_init;
  method_hex log topics st.

(** The body of the [for log in votes] loop. *)
Definition vote_of (log : dict) : option VoteRecord :=
  st ← vote_extract log;
  dt ← vote_instant log st;
  if found_weight st && Qltb 0 (weight_val st) then
    Some (mkVote (dt_date dt) dt (weight_val st / unit_scale)%Q
            (total_weight_val st / unit_scale)%Q (voter_addr st) "vote")
  else None.

Definition vote_list (votes : list dict) : list VoteRecord :=
  omap vote_of votes.

(** ** Aggregation *)

(** Column sum; exact in the rational model, so the order of the additions
    is immaterial up to [==]. *)
Definition Qsum (l : list Q) : Q := foldr Qplus 0%Q l.

(** [Series.cumsum()]: running totals, the first entry unchanged. *)
Fixpoint cumsum_from (acc : Q) (l : list Q) : list Q :=
  match l with
  | [] => []
  | x :: rest => let s := (acc + x)%Q in s :: cumsum_from s rest
  end.

Definition cumsum (l : list Q) : list Q :=
  match l with
  | [] => []
  | x :: rest => x :: cumsum_from x rest
  end.

(** The keys of [groupby("date")], and [sorted(list(set(...)))]: the distinct
    dates in ascending order. *)
Definition sorted_dates (ds : list date) : list date :=
  merge_sort date_le (remove_dups ds).

(** [df_locks.groupby("date").agg({"amount": "sum", "type": "count"})]:
    rows (date, amount, lock_count). *)
Definition daily_locks (ll : list LockRecord) : list (date * Q * nat) :=
  (λ d, let g := filter (λ r, l_date r = d) ll in
        (d, Qsum (l_amount <$> g), length g))
    <$> sorted_dates (l_date <$> ll).

(** [df_votes.groupby("date").agg({"voting_power": "sum", "voter": "count"})]:
    rows (date, voting_power, vote_count). *)
Definition daily_votes (vl : list VoteRecord) : list (date * Q * nat) :=
  (λ d, let g := filter (λ r, v_date r = d) vl in
        (d, Qsum (v_voting_power <$> g), length g))
    <$> sorted_dates (v_date <$> vl).

(** [left.merge(right, on="date", how="left").fillna(0)]: every left row is
    paired with each right row of its date, or with zeros when there is
    none. *)
Definition merge_left {L : Type} (key : L → date) (left : list L)
    (right : list (date * Q * nat)) : list (L * (Q * nat)) :=
  left ≫= (λ row,
    match filter (λ r, r.1.1 = key row) right with
    | [] => [(row, (0%Q, 0%nat))]
    | ms => (λ m, (row, (m.1.2, m.2))) <$> ms
    end).

Record DailyRow : Type := mkDaily {
  d_date : date;
  d_amount : Q;
  d_lock_count : nat;
  d_voting_power : Q;
  d_vote_count : nat;
  d_cumulative_locks : Q;
  d_cumulative_votes : Q
}.

(** Steps 4 and 5 of [parse_data]: the rows of [df_main] when the merges go
    through (see [parse_data] for the one case in which they do not). *)
Definition df_main (ll : list LockRecord) (vl : list VoteRecord) : list DailyRow :=
  let dl := daily_locks ll in
  let dv := daily_votes vl in
  let all_dates := sorted_dates (((λ r, r.1.1) <$> dl) ++ ((λ r, r.1.1) <$> dv)) in
  let m1 := merge_left id all_dates dl in
  let m2 := merge_left fst m1 dv in
  let cl := cumsum ((λ r, r.1.2.1) <$> m2) in
  let cv := cumsum ((λ r, r.2.1) <$> m2) in
  zip_with (λ r c, mkDaily r.1.1 r.1.2.1 r.1.2.2 r.2.1 r.2.2 c.1 c.2)
    m2 (zip cl cv).

Record DistRow : Type := mkDist {
  b_cat : string;
  b_order : Z;
  b_tx_count : nat;
  b_amount : Q;
  b_legend : string
}.

(** The comparison of [sort_values("order")] on the group keys. *)
Definition key_order_le (a b : string * Z) : Prop := a.2 ≤ b.2.

#[global] Instance key_order_le_dec : RelDecision key_order_le.
Proof. intros a b. unfold key_order_le. apply _. Defined.

(** The comparisons of [sort_values("ts", ascending=False)]. *)
Definition lock_newer (a b : LockRecord) : Prop := datetime_le (l_ts b) (l_ts a).

Definition vote_newer (a b : VoteRecord) : Prop := datetime_le (v_ts b) (v_ts a).

#[global] Instance lock_newer_dec : RelDecision lock_newer.
Proof. intros a b. unfold lock_newer. apply _. Defined.

#[global] Instance vote_newer_dec : RelDecision vote_newer.
Proof. intros a b. unfold vote_newer. apply _. Defined.

(** Step 6: the buckets that occur, by ascending [order]. (The keys of one
    [order] share their [cat] for records made by [lock_of], so the order
    of ties is not in question.) *)
Definition dist_df (ll : list LockRecord) : list DistRow :=
  let keys := merge_sort key_order_le
                (remove_dups ((λ r, (l_cat r, l_order r)) <$> ll)) in
  (λ k, let g := filter (λ r, (l_cat r, l_order r) = k) ll in
        let total := Qsum (l_amount <$> g) in
        mkDist k.1 k.2 (length g) total
          (k.1 +:+ " (Txs: " +:+ pretty (length g) +:+ ", Total: "
             +:+ format_2f total +:+ ")"))
    <$> keys.

(** Step 7: the records by descending instant. (pandas leaves the order
    among equal instants open; here it is that of the merge sort.) *)
Definition df_raw_locks (ll : list LockRecord) : list LockRecord :=
  merge_sort lock_newer ll.

Definition df_raw_votes (vl : list VoteRecord) : list VoteRecord :=
  merge_sort vote_newer vl.

(** [not df.empty], and the truth of a list. *)
Definition nonempty {A : Type} (l : list A) : bool :=
  match l with
  | [] => false
  | _ :: _ => true
  end.

Record outputs : Type := mkOutputs {
  out_main : list DailyRow;
  out_dist : list DistRow;
  out_raw_locks : list LockRecord;
  out_raw_votes : list VoteRecord
}.

(** [parse_data]; [None] when it raises. The loops catch what an item
    raises, the rest of the function catches nothing, and one step raises:
    with no lock and no vote record, [all_dates] is empty, the [date] column
    built from it is a column of floats, and [merge] refuses to join it with
    the empty [date] column of [daily_locks], a column of objects
    ([ValueError]). With a record of either kind the columns on both sides
    hold dates, or one side only is empty, and the merges go through. *)
Definition parse_data (locks votes : list dict) : option outputs :=
  let ll := lock_list locks in
  let vl := vote_list votes in
  if nonempty ll || nonempty vl
  then Some (mkOutputs (df_main ll vl) (dist_df ll) (df_raw_locks ll) (df_raw_votes vl))
  else None.

(** ** Persistence and orchestration *)

(** The file [vebtc_data.json]: absent, not decodable, or holding the two
    collections. *)
Inductive store : Type :=
| NoFile
| Unreadable
| Stored (locks votes : list dict).

(** [load_data]. *)
Definition load_data (f : store) : list dict * list dict :=
  match f with
  | Stored locks votes => (locks, votes)
  | _ => ([], [])
  end.

(** [save_data]: the file is replaced as a whole when the write succeeds and
    left as it was when it raises. *)
Definition save_data (write_ok : bool) (locks votes : list dict) (f : store) : store :=
  if write_ok then Stored locks votes else f.

(** What one run meets outside the program. *)
Record world : Type := mkWorld {
  lock_source : remote;
  vote_source : remote;
  balance_body : option dict;
  write_ok : bool
}.

Definition LOCK_TOKEN : string := "0x7b7C000000000000000000000000000000000000".

Definition lock_params : gmap string json :=
  {[ "filter" := JStr "to"; "token" := JStr LOCK_TOKEN ]}.

(** [fetch_current_balance]. *)
Definition fetch_current_balance (body : option dict) : string :=
  match body with
  | Some data =>
      match py_float (dict_get_default "coin_balance" (JStr "0") data) with
      | Some raw => format_comma_2f (raw / unit_scale)%Q
      | None => "N/A"
      end
  | None => "N/A"
  end.

(** The [__main__] block up to the hand-over to [generate_dashboard]: the
    file afterwards, and the four tables with the balance text, or [None]
    in their place when [parse_data] raised: nothing catches that, and the
    run ends there, after the save if one was due. (The outer [None] is a
    fetch loop that has not ended within [fuel] iterations.) *)
Definition main (fuel : nat) (w : world) (f : store)
    : option (store * option (outputs * string)) :=
  let '(existing_locks, existing_votes) := load_data f in
  '(new_locks, _) ← fetch_incremental fuel (lock_source w) lock_params existing_locks;
  '(new_votes, _) ← fetch_incremental fuel (vote_source w) ∅ existing_votes;
  let current_balance := fetch_current_balance (balance_body w) in
  let all_locks := new_locks ++ existing_locks in
  let all_votes := new_votes ++ existing_votes in
  let f' := if nonempty new_locks || nonempty new_votes
            then save_data (write_ok w) all_locks all_votes f else f in
  Some (f', out ← parse_data all_locks all_votes; Some (out, current_balance)).

End Program.

(** ** An instance of the library interface

    It agrees with Python on the inputs used in the examples of this file:
    well-formed instants, plain decimal and hexadecimal digit text, and UTC
    as the local time zone. *)

Module Example.

Definition digit_val (c : ascii) : option Z :=
  let n := Z.of_N (N_of_ascii c) in
  if (48 <=? n) && (n <=? 57) then Some (n - 48) else None.

Definition hex_digit_val (c : ascii) : option Z :=
  let n := Z.of_N (N_of_ascii c) in
  if (48 <=? n) && (n <=? 57) then Some (n - 48)
  else if (97 <=? n) && (n <=? 102) then Some (n - 87)
  else if (65 <=? n) && (n <=? 70) then Some (n - 55)
  else None.

(** The value of digit text in the given base, most significant first. *)
Fixpoint digits_val (dv : ascii → option Z) (base : Z) (acc : Z) (s : string)
    : option Z :=
  match s with
  | EmptyString => Some acc
  | String c t => d ← dv c; digits_val dv base (acc * base + d) t
  end.

Definition number_of (dv : ascii → option Z) (base : Z) (s : string) : option Z :=
  match s with
  | EmptyString => None
  | _ => digits_val dv base 0 s
  end.

Definition is_leap (y : Z) : bool :=
  ((y mod 4 =? 0) && negb (y mod 100 =? 0)) || (y mod 400 =? 0).

Definition days_in_month (y m : Z) : Z :=
  if m =? 2 then (if is_leap y then 29 else 28)
  else if (m =? 4) || (m =? 6) || (m =? 9) || (m =? 11) then 30
  else 31.

(** [YYYY-MM-DDTHH:MM:SS], every field at full width. *)
Definition strptime (s : string) : option datetime :=
  if negb (String.length s =? 19)%nat then None
  else if negb (String.eqb (py_slice 4 5 s) "-" && String.eqb (py_slice 7 8 s) "-"
                && String.eqb (py_slice 10 11 s) "T" && String.eqb (py_slice 13 14 s) ":"
                && String.eqb (py_slice 16 17 s) ":") then None
  else
    y ← number_of digit_val 10 (py_slice 0 4 s);
    m ← number_of digit_val 10 (py_slice 5 7 s);
    d ← number_of digit_val 10 (py_slice 8 10 s);
    h ← number_of digit_val 10 (py_slice 11 13 s);
    mi ← number_of digit_val 10 (py_slice 14 16 s);
    se ← number_of digit_val 10 (py_slice 17 19 s);
    if (1 <=? y) && (1 <=? m) && (m <=? 12) && (1 <=? d) && (d <=? days_in_month y m)
       && (h <=? 23) && (mi <=? 59) && (se <=? 59)
    then Some (mkdatetime (mkdate y m d) h mi se)
    else None.

(** The civil date of a day count from 1970-01-01. *)
Definition civil_from_days (days : Z) : date :=
  let z := days + 719468 in
  let era := z / 146097 in
  let doe := z - era * 146097 in
  let yoe := (doe - doe / 1460 + doe / 36524 - doe / 146096) / 365 in
  let doy := doe - (365 * yoe + yoe / 4 - yoe / 100) in
  let mp := (5 * doy + 2) / 153 in
  let d := doy - (153 * mp + 2) / 5 + 1 in
  let m := if mp <? 10 then mp + 3 else mp - 9 in
  let y := yoe + era * 400 + (if m <=? 2 then 1 else 0) in
  mkdate y m d.

Definition utc_fromtimestamp (t : Z) : option datetime :=
  let d := civil_from_days (t / 86400) in
  let r := t mod 86400 in
  if (1 <=? year d) && (year d <=? 9999)
  then Some (mkdatetime d (r / 3600) (r mod 3600 / 60) (r mod 60))
  else None.

Definition two_digits (n : Z) : string :=
  (if n <? 10 then "0" else "") +:+ pretty n.

(** Two decimals, ties to even. *)
Definition fixed_2 (q : Q) : string :=
  let n := Qnum q * 100 in
  let d := Zpos (Qden q) in
  let fl := n / d in
  let r2 := 2 * (n mod d) in
  let c := if (d <? r2) || ((r2 =? d) && Z.odd fl) then fl + 1 else fl in
  let a := Z.abs c in
  (if c <? 0 then "-" else "") +:+ pretty (a / 100) +:+ "." +:+ two_digits (a mod 100).

(** Digits in groups of three. *)
Fixpoint group_thousands (fuel : nat) (n : Z) : string :=
  match fuel with
  | O => pretty n
  | S fuel' =>
      if n <? 1000 then pretty n
      else group_thousands fuel' (n / 1000) +:+ ","
             +:+ (if n mod 1000 <? 100 then "0" else "") +:+ two_digits (n mod 1000)
  end.

Definition fixed_2_comma (q : Q) : string :=
  let n := Qnum q * 100 in
  let d := Zpos (Qden q) in
  let fl := n / d in
  let r2 := 2 * (n mod d) in
  let c := if (d <? r2) || ((r2 =? d) && Z.odd fl) then fl + 1 else fl in
  let a := Z.abs c in
  (if c <? 0 then "-" else "") +:+ group_thousands (Z.to_nat (Z.log2 a)) (a / 100)
    +:+ "." +:+ two_digits (a mod 100).

#[global] Instance builtins : Builtins := {|
  strptime_iso := strptime;
  fromtimestamp := utc_fromtimestamp;
  float_of_str := λ s, inject_Z <$> number_of digit_val 10 s;
  int_of_str := number_of digit_val 10;
  int_of_hex := number_of hex_digit_val 16;
  repr_of := λ v, match v with JObj [] => "{}" | JArr [] => "[]" | _ => "<repr>" end;
  format_2f := fixed_2;
  format_comma_2f := fixed_2_comma
|}.

(** A transfer item of the given hash and log index. *)
Definition transfer (h : string) (i : Z) : dict :=
  [("tx_hash", JStr h); ("log_index", JInt i)].

Definition five (h : string) : list dict :=
  [transfer h 0; transfer h 1; transfer h 2; transfer h 3; transfer h 4].

(** Three pages of five items. *)
Definition pages_3x5 : list (list dict) := [five "0xa1"; five "0xa2"; five "0xa3"].

(** A source serving [pages] one per request, with next-page parameters on
    every page but the last. *)
Definition paged_source (pages : list (list dict)) : remote :=
  λ n _,
    match pages !! n with
    | Some p =>
        Body (mkpage p (if (S n <? length pages)%nat
                        then [("page", JInt (Z.of_nat (S n)))] else []))
    | None => Body (mkpage [] [])
    end.

(** The same source, with every request from number [k] on raising. *)
Definition failing_from (k : nat) (pages : list (list dict)) : remote :=
  λ n params, if (k <=? n)%nat then Failed else paged_source pages n params.

(** A lock transfer as the explorer serves it. *)
Definition lock_tx (h ts value sender : string) : dict :=
  [("tx_hash", JStr h); ("log_index", JInt 0); ("timestamp", JStr ts);
   ("total", JObj [("value", JStr value); ("decimals", JStr "18")]);
   ("from", JObj [("hash", JStr sender)])].

Definition sample_locks : list dict :=
  [lock_tx "0xb3" "2024-03-02T08:00:00.000000Z" "2500000000000000000" "0xabc";
   lock_tx "0xb2" "2024-03-01T17:30:00.000000Z" "500000000000000" "0xdef";
   lock_tx "0xb1" "2024-03-01T10:20:30.000000Z" "1000000000000000000" "0xabc"].

(** A transfer sent by the contract itself, in lower case. *)
Definition self_tx : dict :=
  lock_tx "0xb4" "2024-03-03T09:00:00.000000Z" "1000000000000000000"
    "0x3d4b1b884a7a1e59fe8589a3296ec8f8cbb6f279".

(** A transfer whose amount is null. *)
Definition no_amount_tx : dict :=
  [("tx_hash", JStr "0xb5"); ("log_index", JInt 0);
   ("timestamp", JStr "2024-03-01T10:20:30.000000Z"); ("total", JNull);
   ("from", JObj [("hash", JStr "0xabc")])].

Definition voter_topic : string :=
  "0x000000000000000000000000aabbccddeeff00112233445566778899aabbccdd".

(** A hexadecimal numeral padded to a 32-byte word. *)
Definition word32 (s : string) : string :=
  string_drop (String.length s)
    "0000000000000000000000000000000000000000000000000000000000000000" +:+ s.

(** A Voted log without decoded form: weight 3e18, total weight 50e18,
    timestamp 1700000100. *)
Definition voted_log_hex : dict :=
  [("transaction_hash", JStr "0xc1"); ("index", JInt 7);
   ("topics", JArr [JStr VOTED_TOPIC_0; JStr voter_topic]);
   ("data", JStr ("0x" +:+ word32 "29a2241af62c0000" +:+ word32 "2b5e3af16b1880000"
                    +:+ word32 "6553f164"))].


(** A Voted log whose decoded form has null for its parameters, with three
    words of data (weight 3e18) and the item's own timestamp. *)
Definition voted_log_null_parameters : dict :=
  [("transaction_hash", JStr "0xc4"); ("index", JInt 10);
   ("topics", JArr [JStr VOTED_TOPIC_0; JStr voter_topic]);
   ("timestamp", JStr "2024-03-01T10:20:30.000000Z");
   ("decoded", JObj [("parameters", JNull)]);
   ("data", JStr ("0x" +:+ word32 "29a2241af62c0000" +:+ word32 "2b5e3af16b1880000"
                    +:+ word32 "6553f164"))].

(** A run that meets nothing new: the lock source serves the stored item
    again and the vote source an empty page. *)
Definition quiet_world : world :=
  mkWorld (paged_source [[lock_tx "0xb1" "2024-03-01T10:20:30.000000Z"
                            "1000000000000000000" "0xabc"]])
    (paged_source []) None true.

Definition quiet_store : store :=
  Stored [lock_tx "0xb1" "2024-03-01T10:20:30.000000Z" "1000000000000000000" "0xabc"]
    [].

(** A source answering every request with the same page. *)
Definition stuck_source : remote :=
  λ _ _, Body (mkpage (five "0xa1") [("page", JInt 1)]).

(** A run that meets new locks and a new vote, starting without a file. *)
Definition busy_world : world :=
  mkWorld (paged_source [sample_locks]) (paged_source [[voted_log_hex]]) None true.

(** The same run where the file cannot be written. *)
Definition readonly_world : world :=
  mkWorld (paged_source [sample_locks]) (paged_source [[voted_log_hex]]) None false.

(** A run without network: every request fails. *)
Definition offline_world : world :=
  mkWorld (λ _ _, Failed) (λ _ _, Failed) None true.

(** A transfer with a bare total and a textual sender, and the same
    transfer with both nested. *)
Definition bare_tx : dict :=
  [("timestamp", JStr "2024-03-01T10:20:30.000000Z");
   ("total", JStr "1000000000000000000"); ("from", JStr "0xabc")].

Definition nested_tx : dict :=
  [("timestamp", JStr "2024-03-01T10:20:30.000000Z");
   ("total", JObj [("value", JStr "1000000000000000000")]);
   ("from", JObj [("hash", JStr "0xabc")])].

(** A Voted log with a decoded weight and its own timestamp. *)
Definition voted_log_decoded : dict :=
  [("transaction_hash", JStr "0xc3"); ("index", JInt 9);
   ("topics", JArr [JStr VOTED_TOPIC_0; JStr voter_topic]);
   ("timestamp", JStr "2024-03-01T10:20:30.000000Z");
   ("decoded", JObj [("parameters", JArr [
      JObj [("name", JStr "weight"); ("value", JStr "5000000000000000000")];
      JObj [("name", JStr "totalWeight"); ("value", JStr "100000000000000000000")];
      JObj [("name", JStr "voter"); ("value", JStr "0xabc")]])])].

End Example.

(** ** Vocabulary of the specification *)

Section Vocabulary.
Context `{B : Builtins}.

(** "The first present of the fields [ks]", for a notion of presence of a
    looked-up value. *)
Fixpoint first_present (present : option json → bool) (ks : list string)
    (item : dict) : option json :=
  match ks with
  | [] => None
  | k :: rest =>
      if present (dict_get k item) then dict_get k item
      else first_present present rest item
  end.

(** Three readings of "present": the key exists; it holds a value other
    than null; it holds a truthy value. *)
Definition key_present (o : option json) : bool := bool_decide (is_Some o).

Definition value_present (o : option json) : bool :=
  match o with
  | Some JNull | None => false
  | Some _ => true
  end.

(** The RecordKey as the specification words it: both parts chosen as the
    first present field, the index defaulting to ["0"]. *)
Definition identify_as_specified (present : option json → bool) (item : dict) : string :=
  py_str_opt (first_present present ["tx_hash"; "transaction_hash"; "hash"] item)
    +:+ "_" +:+
    py_str (default (JStr "0") (first_present present ["index"; "log_index"] item)).

(** The transaction identifier the code uses: the first truthy of the three
    fields, else whatever ["hash"] holds. *)
Definition transaction_identifier (item : dict) : option json :=
  match first_present truthy_opt ["tx_hash"; "transaction_hash"] item with
  | Some v => Some v
  | None => dict_get "hash" item
  end.

(** The index the code uses: the first of the two keys that exists. *)
Definition index_field (item : dict) : json :=
  default (JStr "0") (first_present key_present ["index"; "log_index"] item).

(** What one page contributes: the items it adds to [new_items], whether it
    sets [stop_fetching], and the known keys after it. *)
Definition page_new (its : list dict) (ids : gset string) : list dict :=
  (scan_page its ids [] false).1.2.

Definition page_stop (its : list dict) (ids : gset string) : bool :=
  (scan_page its ids [] false).2.

Definition page_ids (its : list dict) (ids : gset string) : gset string :=
  (scan_page its ids [] false).1.1.

(** The keys known when the item at position [i] of a page is reached. *)
Definition known_at (ids : gset string) (its : list dict) (i : nat) : gset string :=
  ids ∪ list_to_set (get_unique_id <$> take i its).

(** The variables of the fetch loop at the head of an iteration. *)
Record loop_state : Type := mkState {
  st_n : nat;
  st_params : gmap string json;
  st_ids : gset string;
  st_new : list dict
}.

Definition initial_state (params : gmap string json) (existing_items : list dict)
    : loop_state :=
  mkState 0 params (list_to_set (get_unique_id <$> existing_items)) [].

(** One full iteration that goes on to a further request: the page is not
    empty, no known item was met, and next-page parameters were given. *)
Inductive page_step (src : remote) : loop_state → loop_state → Prop :=
| page_step_next s pg ids' new' :
    src (st_n s) (st_params s) = Body pg →
    items pg ≠ [] →
    scan_page (items pg) (st_ids s) (st_new s) false = (ids', new', false) →
    truthy (JObj (next_page_params pg)) = true →
    page_step src s
      (mkState (S (st_n s)) (params_update (st_params s) (next_page_params pg))
         ids' new').

(** The loop run from a state. *)
Definition loop_from (fuel : nat) (src : remote) (s : loop_state)
    : option (list dict * nat) :=
  fetch_loop fuel src (st_n s) (st_params s) (st_ids s) (st_new s).

(** The source presents exactly the pages [pages], in this order, to a
    client that starts at request [n] with [params] and follows the
    next-page parameters: after the last page there are no further
    parameters, or the next answer is an empty page. *)
Fixpoint presents (src : remote) (n : nat) (params : gmap string json)
    (pages : list (list dict)) : Prop :=
  match pages with
  | [] => ∃ nx, src n params = Body (mkpage [] nx)
  | p :: rest =>
      ∃ nx, src n params = Body (mkpage p nx) ∧
        if truthy (JObj nx) then presents src (S n) (params_update params nx) rest
        else rest = []
  end.

(** The amount field of a transfer is absent or null: [total] itself, or
    the [value] nested in it. *)
Definition amount_missing (tx : dict) : Prop :=
  dict_get "total" tx = None ∨ dict_get "total" tx = Some JNull
  ∨ ∃ d, dict_get "total" tx = Some (JObj d)
         ∧ (dict_get "value" d = None ∨ dict_get "value" d = Some JNull).

(** Strictly earlier. *)
Definition date_lt (a b : date) : Prop := date_le a b ∧ a ≠ b.

(** The lock records and the vote records of a day. *)
Definition locks_on (ll : list LockRecord) (d : date) : list LockRecord :=
  filter (λ r, l_date r = d) ll.

Definition votes_on (vl : list VoteRecord) (d : date) : list VoteRecord :=
  filter (λ r, v_date r = d) vl.

(** The date axis of the merged table. *)
Definition date_axis (ll : list LockRecord) (vl : list VoteRecord) : list date :=
  sorted_dates (((λ r, r.1.1) <$> daily_locks ll) ++ ((λ r, r.1.1) <$> daily_votes vl)).

(** The locked amount and the voting power of a day. *)
Definition locked_on (ll : list LockRecord) (d : date) : Q :=
  Qsum (l_amount <$> locks_on ll d).

Definition voted_on (vl : list VoteRecord) (d : date) : Q :=
  Qsum (v_voting_power <$> votes_on vl d).

(** The values of the decoded parameters of a given name, in order. *)
Definition param_value (name : string) (p : json) : option json :=
  match p with
  | JObj dp =>
      if json_is_str (dict_get_default "name" (JStr "") dp) name
      then Some (default JNull (dict_get "value" dp)) else None
  | _ => None
  end.

Definition param_values (name : string) (log : dict) : list json :=
  omap (param_value name) (default [] (decoded_params log)).

(** The decoded form has a parameter named [weight]. *)
Definition has_weight_param (log : dict) : bool :=
  nonempty (param_values "weight" log).

(** The [k]-th 32-byte word of [data], read as a big-endian integer, when
    [data] holds three words. *)
Definition data_word (log : dict) (k : nat) : option Z :=
  data ← as_str (dict_get_default "data" (JStr "") log);
  let data_hex := remove_0x data in
  if (192 <=? String.length data_hex)%nat
  then int_of_hex (py_slice (64 * k) (64 * k + 64) data_hex)
  else None.

(** The weight as the specification words it: that of the [weight]
    parameter when there is one, otherwise the first word of [data]. *)
Definition weight_as_specified (log : dict) : option Q :=
  match last (param_values "weight" log) with
  | Some v => py_float v
  | None => data_word log 0 ≫= (λ n, py_float (JInt n))
  end.

(** The value the decoder goes through: [parameters] of [decoded] when this
    is a non-empty mapping, the empty list when it has no such key or is
    anything else. *)
Definition parameters_value (log : dict) : json :=
  match dict_get "decoded" log with
  | Some (JObj (b :: d)) => dict_get_default "parameters" (JArr []) (b :: d)
  | _ => JArr []
  end.

Definition as_dict (v : json) : option dict :=
  match v with
  | JObj d => Some d
  | _ => None
  end.

(** A value that can be gone through as a sequence of mappings: a list of
    mappings, or a text or mapping that is empty. *)
Definition mappings_of (v : json) : option (list dict) :=
  match v with
  | JArr l => mapM as_dict l
  | JStr EmptyString => Some []
  | JObj [] => Some []
  | _ => None
  end.

(** The decoded form can be read: its parameters are a sequence of mappings,
    the value of each [weight] and [totalWeight] parameter converts with
    [float] and that of each [timestamp] parameter with [int]. *)
Definition decoded_readable (log : dict) : Prop :=
  is_Some (mappings_of (parameters_value log))
  ∧ Forall (λ v, is_Some (py_float v)) (param_values "weight" log)
  ∧ Forall (λ v, is_Some (py_float v)) (param_values "totalWeight" log)
  ∧ Forall (λ v, is_Some (py_int v)) (param_values "timestamp" log).





(** The run fetches something new, and therefore writes the file. *)
Definition fetches_new (fuel : nat) (w : world) (f : store) : bool :=
  match fetch_incremental fuel (lock_source w) lock_params (load_data f).1,
        fetch_incremental fuel (vote_source w) ∅ (load_data f).2 with
  | Some (new_locks, _), Some (new_votes, _) => nonempty new_locks || nonempty new_votes
  | _, _ => false
  end.

(** The stored collections yield a lock or a vote record. *)
Definition holds_record (f : store) : Prop :=
  lock_list (load_data f).1 ≠ [] ∨ vote_list (load_data f).2 ≠ [].

(** What the fetch loop keeps: the known keys are the initial ones and those of
    [new_items], which are distinct and not among the initial ones. *)
Definition loop_inv (ids0 ids : gset string) (acc : list dict) : Prop :=
  ids = ids0 ∪ list_to_set (get_unique_id <$> acc)
  ∧ NoDup (get_unique_id <$> acc)
  ∧ ∀ x, x ∈ acc → get_unique_id x ∉ ids0.

(** The character occurs in the text. *)
Fixpoint has_char (c : ascii) (s : string) : bool :=
  match s with
  | EmptyString => false
  | String a t => Ascii.eqb a c || has_char c t
  end.

End Vocabulary.

(** * Properties *)

Section Properties.
Context `{B : Builtins}.

(** ** Record identity *)

(** C7 (amended): [get_unique_id] is total and returns
    [{transaction_identifier}_{index}], where the transaction identifier is
    the first truthy value among [tx_hash], [transaction_hash], [hash] (the
    value of [hash], [None] when absent, if none is truthy) and the index is
    the value of the first existing key among [index], [log_index], ["0"]
    when neither exists; an item with none of the five fields gets
    ["None_0"]. *)
Theorem get_unique_id_first_truthy (item : dict) :
  get_unique_id item
    = py_str_opt (transaction_identifier item) +:+ "_" +:+ py_str (index_field item)
  ∧ (dict_get "tx_hash" item = None → dict_get "transaction_hash" item = None →
     dict_get "hash" item = None → dict_get "index" item = None →
     dict_get "log_index" item = None → get_unique_id item = "None_0").
Proof.
  split.
  - unfold get_unique_id, transaction_identifier, index_field, py_or,
      dict_get_default, key_present. simpl.
    destruct (dict_get "tx_hash" item) as [v1|] eqn:E1; simpl;
      destruct (dict_get "transaction_hash" item) as [v2|] eqn:E2; simpl;
      destruct (dict_get "index" item) as [i1|] eqn:E3; simpl;
      destruct (dict_get "log_index" item) as [i2|] eqn:E4; simpl;
      repeat case_match; simpl; done.
  - intros H1 H2 H3 H4 H5.
    unfold get_unique_id, py_or, dict_get_default.
    rewrite H1, H2, H3, H4, H5. reflexivity.
Qed.

(** ** Incremental fetcher *)

Lemma scan_page_acc (its : list dict) (ids : gset string) (acc : list dict) (stop : bool) :
  scan_page its ids acc stop
  = (page_ids its ids, acc ++ page_new its ids, stop || page_stop its ids).
Proof.
  unfold page_ids, page_new, page_stop.
  revert ids acc stop.
  induction its as [|x its IH]; intros ids acc stop; simpl.
  - by rewrite app_nil_r, orb_false_r.
  - destruct (bool_decide (get_unique_id x ∈ ids)) eqn:Hin.
    + rewrite (IH ids acc true), (IH ids [] true).
      by rewrite orb_true_r.
    + apply bool_decide_eq_false in Hin.
      rewrite bool_decide_eq_true_2 by done.
      rewrite (IH _ (acc ++ [x]) stop), (IH _ ([] ++ [x]) false).
      simpl. by rewrite <- app_assoc.
Qed.

Lemma page_new_cons (x : dict) (its : list dict) (ids : gset string) :
  page_new (x :: its) ids
  = if bool_decide (get_unique_id x ∈ ids) then page_new its ids
    else x :: page_new its ({[get_unique_id x]} ∪ ids).
Proof.
  unfold page_new at 1. simpl.
  destruct (bool_decide (get_unique_id x ∈ ids)) eqn:Hin.
  - by rewrite scan_page_acc.
  - apply bool_decide_eq_false in Hin.
    rewrite bool_decide_eq_true_2 by done.
    by rewrite scan_page_acc.
Qed.

Lemma page_stop_cons (x : dict) (its : list dict) (ids : gset string) :
  page_stop (x :: its) ids
  = if bool_decide (get_unique_id x ∈ ids) then true
    else page_stop its ({[get_unique_id x]} ∪ ids).
Proof.
  unfold page_stop at 1. simpl.
  destruct (bool_decide (get_unique_id x ∈ ids)) eqn:Hin.
  - by rewrite scan_page_acc.
  - apply bool_decide_eq_false in Hin.
    rewrite bool_decide_eq_true_2 by done.
    by rewrite scan_page_acc.
Qed.

Lemma page_ids_cons (x : dict) (its : list dict) (ids : gset string) :
  page_ids (x :: its) ids
  = if bool_decide (get_unique_id x ∈ ids) then page_ids its ids
    else page_ids its ({[get_unique_id x]} ∪ ids).
Proof.
  unfold page_ids at 1. simpl.
  destruct (bool_decide (get_unique_id x ∈ ids)) eqn:Hin.
  - by rewrite scan_page_acc.
  - apply bool_decide_eq_false in Hin.
    rewrite bool_decide_eq_true_2 by done.
    by rewrite scan_page_acc.
Qed.

Lemma page_ids_union (its : list dict) (ids : gset string) :
  page_ids its ids = ids ∪ list_to_set (get_unique_id <$> its).
Proof.
  revert ids. induction its as [|x its IH]; intros ids.
  - unfold page_ids. simpl. set_solver.
  - rewrite page_ids_cons. case_bool_decide; rewrite IH; set_solver.
Qed.

Lemma known_at_cons (x : dict) (its : list dict) (ids : gset string) (i : nat) :
  known_at ids (x :: its) (S i) = known_at ({[get_unique_id x]} ∪ ids) its i.
Proof. unfold known_at. simpl. set_solver. Qed.

Lemma known_at_cons_known (x : dict) (its : list dict) (ids : gset string) (i : nat) :
  get_unique_id x ∈ ids → known_at ids (x :: its) (S i) = known_at ids its i.
Proof. intros Hin. unfold known_at. simpl. set_solver. Qed.

(** The items a page adds are those whose key is not known when they are
    reached, in page order. *)
Lemma page_new_positions (its : list dict) (ids : gset string) :
  page_new its ids
  = mjoin (imap (λ i x, if bool_decide (get_unique_id x ∈ known_at ids its i)
                        then [] else [x]) its).
Proof.
  revert ids. induction its as [|x its IH]; intros ids.
  - reflexivity.
  - rewrite page_new_cons, imap_cons. simpl.
    assert (known_at ids (x :: its) 0 = ids) as -> by (unfold known_at; simpl; set_solver).
    case_bool_decide as Hin; simpl.
    + rewrite IH. f_equal. apply imap_ext. intros i y _. simpl.
      by rewrite known_at_cons_known.
    + f_equal. rewrite IH. f_equal. apply imap_ext. intros i y _. simpl.
      by rewrite known_at_cons.
Qed.

(** A page sets [stop_fetching] exactly when it holds an item whose key is
    known when it is reached. *)
Lemma page_stop_positions (its : list dict) (ids : gset string) :
  page_stop its ids = true
  ↔ ∃ i x, its !! i = Some x ∧ get_unique_id x ∈ known_at ids its i.
Proof.
  revert ids. induction its as [|x its IH]; intros ids.
  - split; [done|]. by intros (i & y & Hl & _).
  - rewrite page_stop_cons. case_bool_decide as Hin.
    + split; [|done]. intros _. exists 0%nat, x. split; [done|].
      unfold known_at. simpl. set_solver.
    + rewrite IH. split.
      * intros (i & y & Hl & Hk). exists (S i), y. split; [done|].
        by rewrite known_at_cons.
      * intros (i & y & Hl & Hk). destruct i as [|i].
        -- simpl in Hl. injection Hl as <-. exfalso. apply Hin.
           unfold known_at in Hk. simpl in Hk. set_solver.
        -- exists i, y. split; [done|]. by rewrite <- known_at_cons.
Qed.

Lemma page_stop_nonempty (its : list dict) (ids : gset string) :
  page_stop its ids = true → its ≠ [].
Proof. by destruct its. Qed.

(** The loop at a page that set [stop_fetching]. *)
Lemma fetch_loop_caught_up (fuel : nat) (src : remote) (n : nat)
    (params : gmap string json) (ids : gset string) (acc : list dict) (pg : page) :
  src n params = Body pg →
  page_stop (items pg) ids = true →
  fetch_loop (S fuel) src n params ids acc
  = Some (acc ++ page_new (items pg) ids, S n).
Proof.
  intros Hreq Hstop. simpl. rewrite Hreq.
  destruct (items pg) as [|x its] eqn:Hits; [done|].
  rewrite scan_page_acc, Hstop. reflexivity.
Qed.

(** C1: in one page, the items are keyed in page order; an item whose key
    is known when it is reached sets the caught-up mark and the scan goes
    on; every item whose key is not known when reached is emitted, in page
    order, and its key joins the known set; and once a page has set the
    mark the loop returns after that page with no further request. *)
Theorem scan_page_then_stop (fuel : nat) (src : remote) (n : nat)
    (params : gmap string json) (ids : gset string) (acc : list dict) (pg : page)
    (Hreq : src n params = Body pg) :
  let its := items pg in
  scan_page its ids acc false
    = (ids ∪ list_to_set (get_unique_id <$> its),
       acc ++ page_new its ids, page_stop its ids)
  ∧ page_new its ids
    = mjoin (imap (λ i x, if bool_decide (get_unique_id x ∈ known_at ids its i)
                          then [] else [x]) its)
  ∧ (page_stop its ids = true
     ↔ ∃ i x, its !! i = Some x ∧ get_unique_id x ∈ known_at ids its i)
  ∧ (page_stop its ids = true →
     fetch_loop (S fuel) src n params ids acc = Some (acc ++ page_new its ids, S n)).
Proof.
  intros its. split; [|split; [|split]].
  - by rewrite scan_page_acc, page_ids_union.
  - apply page_new_positions.
  - apply page_stop_positions.
  - intros Hstop. by apply fetch_loop_caught_up.
Qed.

(** A page of distinct keys adds its items of unknown key and sets the
    mark when one of its keys is known. *)
Lemma filter_fresh_key (k : string) (its : list dict) (ids : gset string) :
  k ∉ get_unique_id <$> its →
  filter (λ y, get_unique_id y ∉ {[k]} ∪ ids) its
  = filter (λ y, get_unique_id y ∉ ids) its.
Proof.
  induction its as [|y its IH]; intros Hk; [done|].
  rewrite fmap_cons, not_elem_of_cons in Hk. destruct Hk as [Hne Hk].
  rewrite !filter_cons, IH by done.
  destruct (decide (get_unique_id y ∉ {[k]} ∪ ids)) as [H1|H1],
    (decide (get_unique_id y ∉ ids)) as [H2|H2]; try done; set_solver.
Qed.

Lemma page_distinct_keys (its : list dict) (ids : gset string) :
  NoDup (get_unique_id <$> its) →
  page_new its ids = filter (λ x, get_unique_id x ∉ ids) its
  ∧ (page_stop its ids = true ↔ ∃ x, x ∈ its ∧ get_unique_id x ∈ ids).
Proof.
  revert ids. induction its as [|x its IH]; intros ids Hnd.
  - split; [done|]. split; [done|]. intros (x & Hx & _). by apply elem_of_nil in Hx.
  - rewrite fmap_cons, NoDup_cons in Hnd. destruct Hnd as [Hx Hnd].
    rewrite page_new_cons, page_stop_cons, filter_cons.
    case_bool_decide as Hin.
    + destruct (IH ids Hnd) as [-> _].
      rewrite decide_False by (intros Hn; by apply Hn).
      split; [done|]. split; [|done]. intros _. exists x. split; [left|done].
    + destruct (IH ({[get_unique_id x]} ∪ ids) Hnd) as [-> Hs].
      rewrite decide_True by done. rewrite filter_fresh_key by done.
      split; [done|]. rewrite Hs. split.
      * intros (y & Hy & Hk). exists y. split; [by right|].
        apply elem_of_union in Hk as [Hk|Hk]; [|done].
        apply elem_of_singleton in Hk. exfalso. apply Hx. rewrite <- Hk.
        by apply list_elem_of_fmap_2.
      * intros (y & Hy & Hk). apply elem_of_cons in Hy as [->|Hy]; [done|].
        exists y. split; [done|]. set_solver.
Qed.

Lemma page_all_fresh (its : list dict) (ids : gset string) :
  NoDup (get_unique_id <$> its) →
  (∀ x, x ∈ its → get_unique_id x ∉ ids) →
  page_new its ids = its ∧ page_stop its ids = false.
Proof.
  intros Hnd Hfresh. destruct (page_distinct_keys its ids Hnd) as [-> Hs]. split.
  - clear Hs Hnd. induction its as [|x its IH]; [done|].
    rewrite filter_cons_True by (apply Hfresh; left).
    f_equal. apply IH. intros y Hy. apply Hfresh. by right.
  - destruct (page_stop its ids); [|done].
    destruct Hs as [Hs _]. destruct (Hs eq_refl) as (x & Hx & Hk).
    by destruct (Hfresh x Hx).
Qed.

(** One iteration that goes on is one unfolding of the loop. *)
Lemma loop_from_step (fuel : nat) (src : remote) (s s' : loop_state) :
  page_step src s s' → loop_from (S fuel) src s = loop_from fuel src s'.
Proof.
  intros [s0 pg ids' new' Hreq Hne Hscan Hnext].
  unfold loop_from. simpl. rewrite Hreq.
  destruct (items pg) as [|x its] eqn:Hits; [done|].
  rewrite Hscan. simpl in Hnext. by rewrite Hnext.
Qed.

Lemma page_step_n (src : remote) (s s' : loop_state) :
  page_step src s s' → st_n s' = S (st_n s).
Proof. by intros []. Qed.

Lemma loop_from_failed (fuel : nat) (src : remote) (s : loop_state) :
  src (st_n s) (st_params s) = Failed →
  loop_from (S fuel) src s = Some (st_new s, S (st_n s)).
Proof. intros Hreq. unfold loop_from. simpl. by rewrite Hreq. Qed.

Lemma loop_from_reaches_failed (src : remote) (s0 s : loop_state) :
  rtc (page_step src) s0 s →
  src (st_n s) (st_params s) = Failed →
  (st_n s0 ≤ st_n s)%nat
  ∧ ∀ fuel, (st_n s - st_n s0 < fuel)%nat →
      loop_from fuel src s0 = Some (st_new s, S (st_n s)).
Proof.
  intros Hrtc Hfail. induction Hrtc as [s|s1 s2 s3 Hstep Hrtc IH].
  - split; [lia|]. intros [|fuel] Hlt; [lia|]. by apply loop_from_failed.
  - destruct (IH Hfail) as [Hle IH']. pose proof (page_step_n _ _ _ Hstep) as Hn.
    split; [lia|]. intros [|fuel] Hlt; [lia|].
    rewrite (loop_from_step _ _ _ _ Hstep). apply IH'. lia.
Qed.

(** C8: when the request that the loop makes in a state reached through
    full iterations raises, the call returns at once with the items
    accumulated until then; that request is the last one made. *)
Theorem fetch_error_keeps_partial (fuel : nat) (src : remote)
    (params : gmap string json) (existing_items : list dict) (s : loop_state)
    (Hrun : rtc (page_step src) (initial_state params existing_items) s)
    (Hfail : src (st_n s) (st_params s) = Failed)
    (Hfuel : (st_n s < fuel)%nat) :
  fetch_incremental fuel src params existing_items = Some (st_new s, S (st_n s)).
Proof.
  destruct (loop_from_reaches_failed _ _ _ Hrun Hfail) as [_ H].
  apply (H fuel). simpl. lia.
Qed.

Lemma concat_all_empty {A : Type} (ls : list (list A)) :
  Forall (λ p, length p = 0%nat) ls → concat ls = [].
Proof.
  induction 1 as [|p ls Hp _ IH]; [done|].
  simpl. rewrite IH. by destruct p.
Qed.

(** The loop over a source that presents pages of keys that are distinct
    and unknown: every item is fetched, in order. *)
Lemma fetch_loop_presents (src : remote) (K : nat) (pages : list (list dict)) :
  Forall (λ p, length p = K) pages →
  ∀ n params ids acc fuel,
    presents src n params pages →
    NoDup (get_unique_id <$> concat pages) →
    (∀ x, x ∈ concat pages → get_unique_id x ∉ ids) →
    (length pages < fuel)%nat →
    ∃ r, fetch_loop fuel src n params ids acc = Some (acc ++ concat pages, r).
Proof.
  intros HK. induction pages as [|p rest IH];
    intros n params ids acc fuel Hsrc Hnd Hfresh Hfuel;
    (destruct fuel as [|fuel]; [simpl in Hfuel; lia|]).
  - destruct Hsrc as [nx Hreq]. exists (S n). simpl. rewrite Hreq. simpl.
    by rewrite app_nil_r.
  - destruct Hsrc as (nx & Hreq & Hcont).
    apply Forall_cons in HK as [Hp HK].
    destruct p as [|x p'] eqn:Ep.
    + simpl in Hp. subst K. exists (S n). simpl. rewrite Hreq. simpl.
      by rewrite concat_all_empty, app_nil_r.
    + rewrite <- Ep in *. simpl in Hnd, Hfresh.
      rewrite fmap_app in Hnd. apply NoDup_app in Hnd as (Hndp & Hdisj & Hndr).
      destruct (page_all_fresh p ids Hndp) as [Hnew Hstop].
      { intros y Hy. apply Hfresh, elem_of_app. by left. }
      simpl. rewrite Hreq. simpl. rewrite Ep, <- Ep.
      rewrite scan_page_acc, Hnew, Hstop, page_ids_union. simpl.
      destruct (match nx with [] => false | _ :: _ => true end) eqn:Hnx.
      * simpl in Hcont. rewrite Hnx in Hcont.
        destruct (IH HK (S n) (params_update params nx)
                    (ids ∪ list_to_set (get_unique_id <$> p)) (acc ++ p) fuel)
          as [r Hr]; try done.
        -- intros y Hy Hk. apply elem_of_union in Hk as [Hk|Hk].
           ++ apply (Hfresh y); [|done]. apply elem_of_app. by right.
           ++ apply elem_of_list_to_set in Hk.
              apply (Hdisj _ Hk). by apply list_elem_of_fmap_2.
        -- simpl in Hfuel. lia.
        -- exists r. rewrite Hr. by rewrite <- app_assoc.
      * simpl in Hcont. rewrite Hnx in Hcont. subst rest.
        exists (S n). simpl. by rewrite app_nil_r.
Qed.

Lemma filter_keep_all {A : Type} (P : A → Prop) `{∀ x, Decision (P x)} (l : list A) :
  (∀ x, x ∈ l → P x) → filter P l = l.
Proof.
  induction l as [|x l IH]; intros HP; [done|].
  rewrite filter_cons_True by (apply HP; left).
  f_equal. apply IH. intros y Hy. apply HP. by right.
Qed.

(** In a page of distinct keys, dropping the items of known key drops the
    item at position [i] alone when its key is the only known one met. *)
Lemma filter_unknown_delete (its : list dict) (ids : gset string) (i : nat) (x : dict) :
  NoDup (get_unique_id <$> its) →
  its !! i = Some x →
  (∀ y, y ∈ its → get_unique_id y ∈ ids → get_unique_id y = get_unique_id x) →
  get_unique_id x ∈ ids →
  filter (λ y, get_unique_id y ∉ ids) its = delete i its.
Proof.
  intros Hnd Hi Honly Hx.
  rewrite delete_take_drop.
  rewrite <- (take_drop_middle its i x Hi) in Hnd, Honly.
  rewrite <- (take_drop_middle its i x Hi) at 1.
  rewrite fmap_app, fmap_cons in Hnd.
  apply NoDup_app in Hnd as (_ & Hpre & Hnd).
  apply NoDup_cons in Hnd as [Hpost _].
  rewrite filter_app, filter_cons_False by (intros Hn; by apply Hn).
  f_equal; apply filter_keep_all; intros y Hy Hk.
  - apply (Hpre (get_unique_id y)); [by apply list_elem_of_fmap_2|].
    rewrite (Honly y); [left| |done]. apply elem_of_app. by left.
  - apply Hpost. rewrite <- (Honly y); [by apply list_elem_of_fmap_2| |done].
    apply elem_of_app. right. by right.
Qed.

(** C2 (amended): from a source presenting N pages of K items with
    pairwise distinct keys, a fetch with no known key returns all N·K items
    in their order; a fetch whose only known key is that of the third item
    of the second page returns the first page followed by every other item
    of the second page (those before the known item and those after it),
    and stops after two requests. *)
Theorem fetch_over_pages (fuel : nat) (src : remote) (params : gmap string json)
    (K : nat) (pages : list (list dict))
    (Hsrc : presents src 0 params pages)
    (HK : Forall (λ p, length p = K) pages)
    (Hkeys : NoDup (get_unique_id <$> concat pages))
    (Hfuel : (length pages < fuel)%nat) :
  (∃ r, fetch_incremental fuel src params [] = Some (concat pages, r))
  ∧ (∀ p1 p2 rest x existing_items,
       pages = p1 :: p2 :: rest →
       p2 !! 2%nat = Some x →
       list_to_set (get_unique_id <$> existing_items)
         = ({[get_unique_id x]} : gset string) →
       fetch_incremental fuel src params existing_items
       = Some (p1 ++ delete 2%nat p2, 2%nat)).
Proof.
  split.
  - unfold fetch_incremental. simpl.
    destruct (fetch_loop_presents src K pages HK 0%nat params ∅ [] fuel)
      as [r Hr]; try done.
    by exists r.
  - intros p1 p2 rest x existing_items -> Hx Hids.
    unfold fetch_incremental. rewrite Hids.
    apply Forall_cons in HK as [Hp1 HK]. apply Forall_cons in HK as [Hp2 _].
    pose proof (lookup_lt_Some _ _ _ Hx) as Hlen2.
    assert (x ∈ p2) as Hxin by (by eapply list_elem_of_lookup_2).
    simpl in Hkeys. rewrite !fmap_app in Hkeys.
    apply NoDup_app in Hkeys as (Hnd1 & Hdisj & Hnd2).
    apply NoDup_app in Hnd2 as (Hnd2 & _ & _).
    destruct fuel as [|[|fuel]]; [simpl in Hfuel; lia..|].
    destruct Hsrc as (nx1 & Hreq1 & Hcont).
    destruct (page_all_fresh p1 {[get_unique_id x]} Hnd1) as [Hnew1 Hstop1].
    { intros y Hy Hk. apply elem_of_singleton in Hk.
      apply (Hdisj (get_unique_id y)); [by apply list_elem_of_fmap_2|].
      rewrite Hk. apply elem_of_app. left. by apply list_elem_of_fmap_2. }
    simpl in Hcont.
    destruct (match nx1 with [] => false | _ :: _ => true end) eqn:Hnx1; [|done].
    destruct Hcont as (nx2 & Hreq2 & _).
    assert (fetch_loop (S (S fuel)) src 0 params {[get_unique_id x]} []
            = fetch_loop (S fuel) src 1 (params_update params nx1)
                ({[get_unique_id x]} ∪ list_to_set (get_unique_id <$> p1)) p1) as ->.
    { simpl fetch_loop at 1. rewrite Hreq1. simpl items.
      destruct p1 as [|y p1'] eqn:Ep1; [simpl in Hp1; lia|]. rewrite <- Ep1 in *.
      rewrite scan_page_acc, Hnew1, Hstop1, page_ids_union. simpl.
      by rewrite Hnx1. }
    destruct (page_distinct_keys p2
                ({[get_unique_id x]} ∪ list_to_set (get_unique_id <$> p1)) Hnd2)
      as [Hnew2 Hstop2].
    rewrite (fetch_loop_caught_up fuel src 1 _ _ p1 (mkpage p2 nx2) Hreq2).
    + simpl items. rewrite Hnew2. f_equal. f_equal. f_equal.
      apply (filter_unknown_delete p2 _ 2%nat x); [done..| |set_solver].
      intros y Hy Hk. apply elem_of_union in Hk as [Hk|Hk]; [set_solver|].
      exfalso. apply elem_of_list_to_set in Hk.
      apply (Hdisj _ Hk). apply elem_of_app. left. by apply list_elem_of_fmap_2.
    + simpl items. apply Hstop2. exists x. split; [done|set_solver].
Qed.

(** ** Lock normalisation *)

Lemma Qltb_lt (x y : Q) : Qltb x y = true ↔ (x < y)%Q.
Proof.
  unfold Qltb. rewrite negb_true_iff.
  destruct (Qle_bool y x) eqn:E.
  - apply Qle_bool_iff in E. split; [done|]. intros H. exfalso.
    by apply (Qlt_not_le x y).
  - split; [|done]. intros _. apply Qnot_le_lt. intros H.
    apply Qle_bool_iff in H. congruence.
Qed.

Lemma Qltb_ge (x y : Q) : Qltb x y = false ↔ (y <= x)%Q.
Proof.
  unfold Qltb. rewrite negb_false_iff. apply Qle_bool_iff.
Qed.

(** C5: the buckets are the five ranges below 0.001, from 0.001 below 0.01,
    from 0.01 below 0.1, from 0.1 below 1, and from 1 on: every amount falls
    in exactly one, and each boundary value falls in the higher bucket.
    (Amounts are the exact rationals of the model.) *)
Theorem size_bucket_partition (amount : Q) :
  ((size_bucket amount = ("< 0.001", 1) ↔ (amount < 1 # 1000)%Q)
   ∧ (size_bucket amount = ("0.001 - 0.01", 2)
      ↔ (1 # 1000 <= amount)%Q ∧ (amount < 1 # 100)%Q)
   ∧ (size_bucket amount = ("0.01 - 0.1", 3)
      ↔ (1 # 100 <= amount)%Q ∧ (amount < 1 # 10)%Q)
   ∧ (size_bucket amount = ("0.1 - 1", 4)
      ↔ (1 # 10 <= amount)%Q ∧ (amount < 1)%Q)
   ∧ (size_bucket amount = ("1 and above", 5) ↔ (1 <= amount)%Q))
  ∧ (size_bucket amount).2 ∈ [1; 2; 3; 4; 5]
  ∧ size_bucket (1 # 1000) = ("0.001 - 0.01", 2)
  ∧ size_bucket (1 # 100) = ("0.01 - 0.1", 3)
  ∧ size_bucket (1 # 10) = ("0.1 - 1", 4)
  ∧ size_bucket 1 = ("1 and above", 5).
Proof.
  split; [|split; [|by repeat split]].
  - unfold size_bucket.
    destruct (Qltb amount (1 # 1000)) eqn:E1;
      [apply Qltb_lt in E1|apply Qltb_ge in E1;
       destruct (Qltb amount (1 # 100)) eqn:E2;
       [apply Qltb_lt in E2|apply Qltb_ge in E2;
        destruct (Qltb amount (1 # 10)) eqn:E3;
        [apply Qltb_lt in E3|apply Qltb_ge in E3;
         destruct (Qltb amount 1) eqn:E4;
         [apply Qltb_lt in E4|apply Qltb_ge in E4]]]];
      repeat split; intros; try done; try lra.
  - unfold size_bucket. repeat case_match; simpl; set_solver.
Qed.

Lemma lock_list_app (l1 l2 : list dict) :
  lock_list (l1 ++ l2) = lock_list l1 ++ lock_list l2.
Proof. apply omap_app. Qed.

Lemma lock_list_cons (tx : dict) (l : list dict) :
  lock_list (tx :: l)
  = match lock_of tx with Some r => r :: lock_list l | None => lock_list l end.
Proof. reflexivity. Qed.

(** C6: a transfer whose sender is the contract address, letter case
    aside, yields no lock record; the lock records, and with them every
    table of [parse_data], are those of the collection without it. *)
Theorem self_transfer_dropped (tx : dict) (sender : string)
    (Hsender : lock_sender tx = Some sender)
    (Hself : lower sender = lower CONTRACT_ADDRESS) :
  lock_of tx = None
  ∧ ∀ before after votes,
      lock_list (before ++ tx :: after) = lock_list (before ++ after)
      ∧ parse_data (before ++ tx :: after) votes = parse_data (before ++ after) votes.
Proof.
  assert (lock_of tx = None) as Hdrop.
  { unfold lock_of. destruct (lock_instant tx); [|done]. simpl.
    destruct (lock_amount tx); [|done]. simpl.
    rewrite Hsender. simpl. rewrite Hself.
    by rewrite String.eqb_refl. }
  split; [done|]. intros before after votes.
  assert (lock_list (before ++ tx :: after) = lock_list (before ++ after)) as Hl.
  { by rewrite !lock_list_app, lock_list_cons, Hdrop. }
  split; [done|]. unfold parse_data. by rewrite Hl.
Qed.

Lemma lock_amount_missing (tx : dict) :
  amount_missing tx → lock_amount tx = Some (inject_Z 0 / unit_scale)%Q.
Proof.
  unfold lock_amount, lock_raw_val.
  intros [H|[H|(d & H & [Hv|Hv])]]; rewrite H; try rewrite Hv; reflexivity.
Qed.

Lemma lock_of_kept (tx : dict) (dt : datetime) (amount : Q) (sender : string) :
  lock_instant tx = Some dt →
  lock_amount tx = Some amount →
  lock_sender tx = Some sender →
  lower sender ≠ lower CONTRACT_ADDRESS →
  lock_of tx
  = Some (mkLock (dt_date dt) dt amount "lock" sender
            (size_bucket amount).1 (size_bucket amount).2).
Proof.
  intros Hts Ha Hs Hother. unfold lock_of. rewrite Hts, Ha, Hs.
  cbn -[lower CONTRACT_ADDRESS String.eqb size_bucket].
  destruct (String.eqb (lower sender) (lower CONTRACT_ADDRESS)) eqn:E.
  - apply String.eqb_eq in E. done.
  - by destruct (size_bucket amount).
Qed.

(** ** Aggregation *)

Lemma lex_le_total (a b : list Z) : lex_le a b = true ∨ lex_le b a = true.
Proof.
  revert b. induction a as [|x a IH]; intros [|y b]; simpl; auto.
  destruct (IH b) as [H|H]; rewrite H;
    destruct (Z.ltb_spec x y), (Z.ltb_spec y x), (Z.eqb_spec x y), (Z.eqb_spec y x);
    simpl; auto; lia.
Qed.

Lemma lex_le_trans (a b c : list Z) :
  lex_le a b = true → lex_le b c = true → lex_le a c = true.
Proof.
  revert b c. induction a as [|x a IH]; intros [|y b] [|z c]; simpl; try done.
  intros H1 H2.
  apply orb_true_iff in H1 as [H1|H1]; apply orb_true_iff in H2 as [H2|H2];
    apply orb_true_iff.
  - left. apply Z.ltb_lt in H1, H2. apply Z.ltb_lt. lia.
  - left. apply andb_true_iff in H2 as [H2 _].
    apply Z.ltb_lt in H1. apply Z.eqb_eq in H2. apply Z.ltb_lt. lia.
  - left. apply andb_true_iff in H1 as [H1 _].
    apply Z.ltb_lt in H2. apply Z.eqb_eq in H1. apply Z.ltb_lt. lia.
  - right. apply andb_true_iff in H1 as [H1 H1'], H2 as [H2 H2'].
    apply Z.eqb_eq in H1, H2. apply andb_true_iff. split.
    + apply Z.eqb_eq. lia.
    + by apply (IH b c).
Qed.

Lemma lex_le_antisym (a b : list Z) :
  lex_le a b = true → lex_le b a = true → a = b.
Proof.
  revert b. induction a as [|x a IH]; intros [|y b]; simpl; try done.
  intros H1 H2.
  apply orb_true_iff in H1 as [H1|H1]; apply orb_true_iff in H2 as [H2|H2].
  - apply Z.ltb_lt in H1, H2. lia.
  - apply andb_true_iff in H2 as [H2 _].
    apply Z.ltb_lt in H1. apply Z.eqb_eq in H2. lia.
  - apply andb_true_iff in H1 as [H1 _].
    apply Z.ltb_lt in H2. apply Z.eqb_eq in H1. lia.
  - apply andb_true_iff in H1 as [H1 H1'], H2 as [H2 H2'].
    apply Z.eqb_eq in H1. subst y. f_equal. by apply IH.
Qed.

#[local] Instance date_le_total : Total date_le.
Proof. intros a b. apply lex_le_total. Qed.

#[local] Instance date_le_trans : Transitive date_le.
Proof. intros a b c. apply lex_le_trans. Qed.

#[local] Instance date_le_antisym : AntiSymm (=) date_le.
Proof.
  intros [y1 m1 d1] [y2 m2 d2] H1 H2.
  pose proof (lex_le_antisym _ _ H1 H2) as H. by injection H as -> -> ->.
Qed.

Lemma elem_of_sorted_dates (ds : list date) (d : date) :
  d ∈ sorted_dates ds ↔ d ∈ ds.
Proof.
  unfold sorted_dates. by rewrite merge_sort_Permutation, elem_of_remove_dups.
Qed.

Lemma NoDup_sorted_dates (ds : list date) : NoDup (sorted_dates ds).
Proof.
  unfold sorted_dates. rewrite merge_sort_Permutation. apply NoDup_remove_dups.
Qed.

Lemma StronglySorted_sorted_dates (ds : list date) :
  StronglySorted date_le (sorted_dates ds).
Proof. apply StronglySorted_merge_sort; apply _. Qed.

(** Ascending without repetition is strictly ascending. *)
Lemma StronglySorted_strict (l : list date) :
  StronglySorted date_le l → NoDup l → StronglySorted date_lt l.
Proof.
  induction 1 as [|x l Hs IH Hx]; intros Hnd; constructor.
  - apply IH. by apply NoDup_cons in Hnd as [_ ?].
  - apply NoDup_cons in Hnd as [Hnotin _].
    rewrite Forall_forall in Hx |- *. intros y Hy. split; [by apply Hx|].
    intros ->. done.
Qed.

Lemma Qsum_cons (x : Q) (l : list Q) : Qsum (x :: l) = (x + Qsum l)%Q.
Proof. reflexivity. Qed.

Lemma Qsum_ext {A : Type} (f g : A → Q) (l : list A) :
  (∀ x, x ∈ l → (f x == g x)%Q) → (Qsum (f <$> l) == Qsum (g <$> l))%Q.
Proof.
  induction l as [|x l IH]; intros H; [reflexivity|].
  rewrite !fmap_cons, !Qsum_cons, (H x), IH; [reflexivity| |left].
  intros y Hy. apply H. by right.
Qed.

Lemma Qsum_plus {A : Type} (f g : A → Q) (l : list A) :
  (Qsum ((λ x, f x + g x)%Q <$> l) == Qsum (f <$> l) + Qsum (g <$> l))%Q.
Proof.
  induction l as [|x l IH]; [reflexivity|].
  rewrite !fmap_cons, !Qsum_cons, IH. ring.
Qed.

Lemma Qsum_zero {A : Type} (l : list A) : (Qsum ((λ _, 0%Q) <$> l) == 0)%Q.
Proof.
  induction l as [|x l IH]; [reflexivity|].
  rewrite fmap_cons, Qsum_cons, IH. ring.
Qed.

Lemma Qsum_indicator (d0 : date) (v : Q) (ds : list date) :
  NoDup ds →
  (Qsum ((λ d, if decide (d0 = d) then v else 0%Q) <$> ds)
   == if decide (d0 ∈ ds) then v else 0)%Q.
Proof.
  induction 1 as [|d ds Hd Hnd IH]; [reflexivity|].
  rewrite fmap_cons, Qsum_cons, IH.
  destruct (decide (d0 = d)) as [->|Hne].
  - rewrite decide_False by done. rewrite decide_True by left. ring.
  - destruct (decide (d0 ∈ ds)) as [Hin|Hin].
    + rewrite decide_True by (by right). ring.
    + rewrite decide_False; [ring|]. intros Hin'.
      apply elem_of_cons in Hin' as [?|?]; done.
Qed.

(** Summing the per-day sums over distinct days that cover the records
    gives the sum over all records. *)
Lemma Qsum_by_day {A : Type} (key : A → date) (val : A → Q) (l : list A)
    (ds : list date) :
  NoDup ds →
  (∀ r, r ∈ l → key r ∈ ds) →
  (Qsum ((λ d, Qsum (val <$> filter (λ r, key r = d) l)) <$> ds)
   == Qsum (val <$> l))%Q.
Proof.
  intros Hnd. induction l as [|r l IH]; intros Hcover.
  - simpl. apply Qsum_zero.
  - rewrite fmap_cons, Qsum_cons, <- IH by (intros r' Hr'; apply Hcover; by right).
    rewrite (Qsum_ext _ (λ d, (if decide (key r = d) then val r else 0)
                              + Qsum (val <$> filter (λ r0, key r0 = d) l))%Q).
    + rewrite Qsum_plus, Qsum_indicator by done.
      rewrite decide_True by (apply Hcover; left). reflexivity.
    + intros d _. rewrite filter_cons.
      destruct (decide (key r = d)); [reflexivity|ring].
Qed.

Lemma length_cumsum_from (acc : Q) (l : list Q) :
  length (cumsum_from acc l) = length l.
Proof. revert acc. induction l as [|x l IH]; intros acc; simpl; [done|]. by rewrite IH. Qed.

Lemma length_cumsum (l : list Q) : length (cumsum l) = length l.
Proof. destruct l; simpl; [done|]. by rewrite length_cumsum_from. Qed.

Lemma cumsum_from_lookup (acc : Q) (l : list Q) (i : nat) (c : Q) :
  cumsum_from acc l !! i = Some c → (c == acc + Qsum (take (S i) l))%Q.
Proof.
  revert acc i. induction l as [|x l IH]; intros acc i H; [done|].
  destruct i as [|i]; simpl in H.
  - injection H as <-. simpl. destruct l; simpl; ring.
  - apply IH in H. rewrite H.
    change (take (S (S i)) (x :: l)) with (x :: take (S i) l).
    rewrite Qsum_cons. ring.
Qed.

(** [cumsum] holds the prefix sums. *)
Lemma cumsum_lookup (l : list Q) (i : nat) (c : Q) :
  cumsum l !! i = Some c → (c == Qsum (take (S i) l))%Q.
Proof.
  destruct l as [|x l]; [done|]. destruct i as [|i]; simpl; intros H.
  - injection H as <-. destruct l; simpl; ring.
  - apply cumsum_from_lookup in H. rewrite H. reflexivity.
Qed.

Lemma filter_table (f : date → Q) (g : date → nat) (ds : list date) (d0 : date) :
  filter (λ r : date * Q * nat, r.1.1 = d0) ((λ d, (d, f d, g d)) <$> ds)
  = (λ d, (d, f d, g d)) <$> filter (λ d, d = d0) ds.
Proof.
  induction ds as [|d ds IH]; [done|].
  rewrite fmap_cons, !filter_cons, IH. simpl.
  by destruct (decide (d = d0)).
Qed.

Lemma filter_eq_NoDup (ds : list date) (d0 : date) :
  NoDup ds →
  filter (λ d, d = d0) ds = if decide (d0 ∈ ds) then [d0] else [].
Proof.
  induction 1 as [|d ds Hd Hnd IH]; [done|].
  rewrite filter_cons, IH. destruct (decide (d = d0)) as [->|Hne].
  - rewrite decide_False by done. by rewrite decide_True by left.
  - destruct (decide (d0 ∈ ds)) as [Hin|Hin].
    + by rewrite decide_True by (by right).
    + rewrite decide_False; [done|]. intros Hin'.
      apply elem_of_cons in Hin' as [?|?]; done.
Qed.

(** A left merge with a table of distinct days adds to each row the values
    of its day, or zeros. *)
Lemma merge_left_table {L : Type} (key : L → date) (left : list L)
    (f : date → Q) (g : date → nat) (ds : list date) :
  NoDup ds →
  merge_left key left ((λ d, (d, f d, g d)) <$> ds)
  = (λ row, (row, if decide (key row ∈ ds) then (f (key row), g (key row))
                  else (0%Q, 0%nat))) <$> left.
Proof.
  intros Hnd. unfold merge_left.
  induction left as [|row left IH]; [done|].
  rewrite bind_cons, IH, fmap_cons, filter_table, filter_eq_NoDup by done.
  by destruct (decide (key row ∈ ds)).
Qed.

Lemma filter_keep_none {A : Type} (P : A → Prop) `{∀ x, Decision (P x)} (l : list A) :
  (∀ x, x ∈ l → ¬ P x) → filter P l = [].
Proof.
  induction l as [|x l IH]; intros HP; [done|].
  rewrite filter_cons_False by (apply HP; left).
  apply IH. intros y Hy. apply HP. by right.
Qed.

Lemma locks_on_absent (ll : list LockRecord) (d : date) :
  d ∉ l_date <$> ll → locks_on ll d = [].
Proof.
  intros Hd. apply filter_keep_none. intros r Hr <-.
  apply Hd. by apply list_elem_of_fmap_2.
Qed.

Lemma votes_on_absent (vl : list VoteRecord) (d : date) :
  d ∉ v_date <$> vl → votes_on vl d = [].
Proof.
  intros Hd. apply filter_keep_none. intros r Hr <-.
  apply Hd. by apply list_elem_of_fmap_2.
Qed.

(** The values of a day in the merged table. *)
Lemma daily_locks_join {L : Type} (key : L → date) (left : list L)
    (ll : list LockRecord) :
  merge_left key left (daily_locks ll)
  = (λ row, (row, (Qsum (l_amount <$> locks_on ll (key row)),
                   length (locks_on ll (key row))))) <$> left.
Proof.
  unfold daily_locks.
  rewrite (merge_left_table key left
             (λ d, Qsum (l_amount <$> filter (λ r, l_date r = d) ll))
             (λ d, length (filter (λ r, l_date r = d) ll)))
    by apply NoDup_sorted_dates.
  apply list_fmap_ext. intros _ row _. f_equal.
  destruct (decide (key row ∈ sorted_dates (l_date <$> ll))) as [Hin|Hin]; [done|].
  rewrite locks_on_absent; [done|]. by rewrite <- elem_of_sorted_dates.
Qed.

Lemma daily_votes_join {L : Type} (key : L → date) (left : list L)
    (vl : list VoteRecord) :
  merge_left key left (daily_votes vl)
  = (λ row, (row, (Qsum (v_voting_power <$> votes_on vl (key row)),
                   length (votes_on vl (key row))))) <$> left.
Proof.
  unfold daily_votes.
  rewrite (merge_left_table key left
             (λ d, Qsum (v_voting_power <$> filter (λ r, v_date r = d) vl))
             (λ d, length (filter (λ r, v_date r = d) vl)))
    by apply NoDup_sorted_dates.
  apply list_fmap_ext. intros _ row _. f_equal.
  destruct (decide (key row ∈ sorted_dates (v_date <$> vl))) as [Hin|Hin]; [done|].
  rewrite votes_on_absent; [done|]. by rewrite <- elem_of_sorted_dates.
Qed.

Lemma daily_locks_dates (ll : list LockRecord) :
  (λ r, r.1.1) <$> daily_locks ll = sorted_dates (l_date <$> ll).
Proof.
  unfold daily_locks. rewrite <- list_fmap_compose.
  rewrite <- (list_fmap_id (sorted_dates _)) at 2. by apply list_fmap_ext.
Qed.

Lemma daily_votes_dates (vl : list VoteRecord) :
  (λ r, r.1.1) <$> daily_votes vl = sorted_dates (v_date <$> vl).
Proof.
  unfold daily_votes. rewrite <- list_fmap_compose.
  rewrite <- (list_fmap_id (sorted_dates _)) at 2. by apply list_fmap_ext.
Qed.

Lemma elem_of_date_axis (ll : list LockRecord) (vl : list VoteRecord) (d : date) :
  d ∈ date_axis ll vl ↔ d ∈ l_date <$> ll ∨ d ∈ v_date <$> vl.
Proof.
  unfold date_axis.
  by rewrite elem_of_sorted_dates, elem_of_app, daily_locks_dates,
    daily_votes_dates, !elem_of_sorted_dates.
Qed.

(** [df_main] row by row. *)
Lemma df_main_rows (ll : list LockRecord) (vl : list VoteRecord) :
  df_main ll vl
  = zip_with (λ d c, mkDaily d (locked_on ll d) (length (locks_on ll d))
                       (voted_on vl d) (length (votes_on vl d)) c.1 c.2)
      (date_axis ll vl)
      (zip (cumsum (locked_on ll <$> date_axis ll vl))
           (cumsum (voted_on vl <$> date_axis ll vl))).
Proof.
  unfold df_main. fold (date_axis ll vl).
  rewrite daily_locks_join, daily_votes_join.
  rewrite <- !list_fmap_compose.
  by rewrite zip_with_fmap_l.
Qed.

Lemma fmap_zip_with_left {X Y Z W : Type} (f : X → Y → Z) (g : Z → W) (h : X → W)
    (l : list X) (k : list Y) :
  (∀ x y, g (f x y) = h x) →
  (length l ≤ length k)%nat →
  g <$> zip_with f l k = h <$> l.
Proof.
  intros Hgf. revert k.
  induction l as [|x l IH]; intros [|y k] Hlen; simpl in *; try done; [lia|].
  rewrite Hgf. f_equal. apply IH. lia.
Qed.

Lemma df_main_dates (ll : list LockRecord) (vl : list VoteRecord) :
  d_date <$> df_main ll vl = date_axis ll vl.
Proof.
  rewrite df_main_rows, (fmap_zip_with_left _ _ id); [apply list_fmap_id|done|].
  rewrite length_zip, !length_cumsum, !length_fmap. lia.
Qed.

Lemma df_main_amounts (ll : list LockRecord) (vl : list VoteRecord) :
  d_amount <$> df_main ll vl = locked_on ll <$> date_axis ll vl.
Proof.
  rewrite df_main_rows. apply fmap_zip_with_left; [done|].
  rewrite length_zip, !length_cumsum, !length_fmap. lia.
Qed.

Lemma df_main_voting_powers (ll : list LockRecord) (vl : list VoteRecord) :
  d_voting_power <$> df_main ll vl = voted_on vl <$> date_axis ll vl.
Proof.
  rewrite df_main_rows. apply fmap_zip_with_left; [done|].
  rewrite length_zip, !length_cumsum, !length_fmap. lia.
Qed.

Lemma df_main_lookup (ll : list LockRecord) (vl : list VoteRecord) (i : nat)
    (row : DailyRow) :
  df_main ll vl !! i = Some row →
  ∃ d cl cv,
    date_axis ll vl !! i = Some d
    ∧ cumsum (locked_on ll <$> date_axis ll vl) !! i = Some cl
    ∧ cumsum (voted_on vl <$> date_axis ll vl) !! i = Some cv
    ∧ row = mkDaily d (locked_on ll d) (length (locks_on ll d))
              (voted_on vl d) (length (votes_on vl d)) cl cv.
Proof.
  rewrite df_main_rows. intros H.
  apply lookup_zip_with_Some in H as (d & [cl cv] & -> & Hd & Hc).
  apply lookup_zip_with_Some in Hc as (cl' & cv' & Heq & Hcl & Hcv).
  injection Heq as -> ->. by exists d, cl', cv'.
Qed.

Lemma df_main_row_values (ll : list LockRecord) (vl : list VoteRecord) (row : DailyRow) :
  row ∈ df_main ll vl →
  d_amount row = locked_on ll (d_date row)
  ∧ d_lock_count row = length (locks_on ll (d_date row))
  ∧ d_voting_power row = voted_on vl (d_date row)
  ∧ d_vote_count row = length (votes_on vl (d_date row)).
Proof.
  intros Hrow. apply list_elem_of_lookup in Hrow as [i Hi].
  apply df_main_lookup in Hi as (d & cl & cv & _ & _ & _ & ->). by simpl.
Qed.

Lemma df_main_cumulative (ll : list LockRecord) (vl : list VoteRecord) (i : nat)
    (row : DailyRow) :
  df_main ll vl !! i = Some row →
  (d_cumulative_locks row == Qsum (d_amount <$> take (S i) (df_main ll vl)))%Q
  ∧ (d_cumulative_votes row
     == Qsum (d_voting_power <$> take (S i) (df_main ll vl)))%Q.
Proof.
  intros Hi. rewrite !fmap_take, df_main_amounts, df_main_voting_powers.
  apply df_main_lookup in Hi as (d & cl & cv & _ & Hcl & Hcv & ->). simpl.
  split; by apply cumsum_lookup.
Qed.

(** C3: the merged daily table has one row for each date of either
    collection and no other, in ascending order; a row holds the sum and the
    count of the records of its date, which are zero for a source without
    records on that date; the cumulative columns are the prefix sums in this
    order, so that on the last row they equal the sum of the daily column,
    which is the sum over all records. *)
Theorem daily_table_dates_and_sums (ll : list LockRecord) (vl : list VoteRecord) :
  let rows := df_main ll vl in
  (∀ d, d ∈ d_date <$> rows ↔ d ∈ l_date <$> ll ∨ d ∈ v_date <$> vl)
  ∧ StronglySorted date_lt (d_date <$> rows)
  ∧ (∀ row, row ∈ rows →
       d_amount row = Qsum (l_amount <$> locks_on ll (d_date row))
       ∧ d_lock_count row = length (locks_on ll (d_date row))
       ∧ d_voting_power row = Qsum (v_voting_power <$> votes_on vl (d_date row))
       ∧ d_vote_count row = length (votes_on vl (d_date row)))
  ∧ (∀ row, row ∈ rows → d_date row ∉ l_date <$> ll →
       d_amount row = 0%Q ∧ d_lock_count row = 0%nat)
  ∧ (∀ row, row ∈ rows → d_date row ∉ v_date <$> vl →
       d_voting_power row = 0%Q ∧ d_vote_count row = 0%nat)
  ∧ (∀ i row, rows !! i = Some row →
       (d_cumulative_locks row == Qsum (d_amount <$> take (S i) rows))%Q
       ∧ (d_cumulative_votes row == Qsum (d_voting_power <$> take (S i) rows))%Q)
  ∧ (∀ row, last rows = Some row →
       (d_cumulative_locks row == Qsum (d_amount <$> rows))%Q
       ∧ (d_cumulative_locks row == Qsum (l_amount <$> ll))%Q
       ∧ (d_cumulative_votes row == Qsum (d_voting_power <$> rows))%Q
       ∧ (d_cumulative_votes row == Qsum (v_voting_power <$> vl))%Q).
Proof.
  intros rows. subst rows.
  split; [|split; [|split; [|split; [|split; [|split]]]]].
  - intros d. rewrite df_main_dates. apply elem_of_date_axis.
  - rewrite df_main_dates. apply StronglySorted_strict.
    + apply StronglySorted_sorted_dates.
    + apply NoDup_sorted_dates.
  - intros row Hrow. by apply df_main_row_values.
  - intros row Hrow Habs.
    destruct (df_main_row_values ll vl row Hrow) as (-> & -> & _).
    unfold locked_on. by rewrite locks_on_absent.
  - intros row Hrow Habs.
    destruct (df_main_row_values ll vl row Hrow) as (_ & _ & -> & ->).
    unfold voted_on. by rewrite votes_on_absent.
  - intros i row Hi. by apply df_main_cumulative.
  - intros row Hlast. rewrite last_lookup in Hlast.
    destruct (df_main_cumulative ll vl _ row Hlast) as [Hl Hv].
    rewrite take_ge in Hl, Hv by lia.
    assert ((Qsum (d_amount <$> df_main ll vl) == Qsum (l_amount <$> ll))%Q) as Hls.
    { rewrite df_main_amounts. apply (Qsum_by_day l_date l_amount).
      - apply NoDup_sorted_dates.
      - intros r Hr. apply elem_of_date_axis. left. by apply list_elem_of_fmap_2. }
    assert ((Qsum (d_voting_power <$> df_main ll vl)
             == Qsum (v_voting_power <$> vl))%Q) as Hvs.
    { rewrite df_main_voting_powers. apply (Qsum_by_day v_date v_voting_power).
      - apply NoDup_sorted_dates.
      - intros r Hr. apply elem_of_date_axis. right. by apply list_elem_of_fmap_2. }
    repeat split; [done| |done|].
    + by rewrite Hl.
    + by rewrite Hv.
Qed.

Lemma length_filter_elem {A : Type} (P : A → Prop) `{∀ x, Decision (P x)}
    (l : list A) (x : A) :
  x ∈ l → P x → (1 ≤ length (filter P l))%nat.
Proof.
  intros Hx HP.
  assert (x ∈ filter P l) as Hin by (by apply list_elem_of_filter).
  destruct (filter P l); [by apply elem_of_nil in Hin|simpl; lia].
Qed.

(** A lock record is counted in the row of its day. *)
Lemma df_main_counts_lock (ll : list LockRecord) (vl : list VoteRecord)
    (r : LockRecord) :
  r ∈ ll →
  ∃ row, row ∈ df_main ll vl ∧ d_date row = l_date r ∧ (1 ≤ d_lock_count row)%nat.
Proof.
  intros Hr.
  assert (l_date r ∈ d_date <$> df_main ll vl) as Hd.
  { rewrite df_main_dates. apply elem_of_date_axis. left.
    by apply list_elem_of_fmap_2. }
  apply list_elem_of_fmap in Hd as (row & Hdate & Hrow).
  exists row. split; [done|]. split; [done|].
  destruct (df_main_row_values ll vl row Hrow) as (_ & -> & _).
  apply (length_filter_elem _ ll r); [done|]. done.
Qed.

(** A lock record is counted in the row of its bucket. *)
Lemma dist_df_counts_lock (ll : list LockRecord) (r : LockRecord) :
  r ∈ ll →
  ∃ b, b ∈ dist_df ll ∧ b_cat b = l_cat r ∧ b_order b = l_order r
    ∧ (1 ≤ b_tx_count b)%nat.
Proof.
  intros Hr. unfold dist_df.
  eexists. split.
  - apply list_elem_of_fmap_2.
    rewrite merge_sort_Permutation, elem_of_remove_dups.
    apply (list_elem_of_fmap_2 (λ r, (l_cat r, l_order r))). exact Hr.
  - simpl. split; [done|]. split; [done|].
    by apply (length_filter_elem _ ll r).
Qed.

(** C10: a transfer with a valid timestamp and a sender other than the
    contract, whose amount field is absent or null, is kept: its record has
    amount 0 and the lowest bucket ("< 0.001", order 1); it stands in the
    lock records, is counted in the daily row of its date and in the
    distribution row of that bucket. *)
Theorem missing_amount_is_zero_lock (tx : dict) (dt : datetime) (sender : string)
    (Hts : lock_instant tx = Some dt)
    (Hsender : lock_sender tx = Some sender)
    (Hother : lower sender ≠ lower CONTRACT_ADDRESS)
    (Hamount : amount_missing tx) :
  ∃ r, lock_of tx = Some r
    ∧ (l_amount r == 0)%Q ∧ l_cat r = "< 0.001" ∧ l_order r = 1
    ∧ l_date r = dt_date dt ∧ l_ts r = dt ∧ l_sender r = sender
    ∧ ∀ before after votes,
        lock_list (before ++ tx :: after)
        = lock_list before ++ r :: lock_list after
        ∧ ∃ out, parse_data (before ++ tx :: after) votes = Some out
          ∧ (∃ row, row ∈ out_main out
               ∧ d_date row = dt_date dt ∧ (1 ≤ d_lock_count row)%nat)
          ∧ (∃ b, b ∈ out_dist out
               ∧ b_cat b = "< 0.001" ∧ b_order b = 1 ∧ (1 ≤ b_tx_count b)%nat).
Proof.
  pose proof (lock_of_kept tx dt _ sender Hts (lock_amount_missing tx Hamount)
                Hsender Hother) as Hr.
  set (r := mkLock _ _ _ _ _ _ _) in Hr.
  exists r. split; [exact Hr|].
  do 6 (split; [reflexivity|]).
  intros before after votes.
  assert (lock_list (before ++ tx :: after)
          = lock_list before ++ r :: lock_list after) as Hl.
  { by rewrite lock_list_app, lock_list_cons, Hr. }
  split; [exact Hl|].
  unfold parse_data. rewrite Hl.
  assert (nonempty (lock_list before ++ r :: lock_list after) = true) as ->.
  { by destruct (lock_list before). }
  eexists. split; [reflexivity|]. cbn [out_main out_dist]. split.
  - match goal with |- context [df_main (?l1 ++ ?r :: ?l2) ?vl] =>
      destruct (df_main_counts_lock (l1 ++ r :: l2) vl r) as (row & H1 & H2 & H3)
    end.
    + apply elem_of_app. right. left.
    + by exists row.
  - match goal with |- context [dist_df (?l1 ++ ?r :: ?l2)] =>
      destruct (dist_df_counts_lock (l1 ++ r :: l2) r) as (b & H1 & H2 & H3 & H4)
    end.
    + apply elem_of_app. right. left.
    + by exists b.
Qed.

(** ** Vote normalisation *)

(** One parameter: a [weight] parameter sets the weight from its value and
    marks it found; any other leaves both as they are. *)
Lemma decode_param_weight (st st' : vote_vars) (p : json) :
  decode_param st p = Some st' →
  match param_value "weight" p with
  | Some v => py_float v = Some (weight_val st') ∧ found_weight st' = true
  | None => weight_val st' = weight_val st ∧ found_weight st' = found_weight st
  end.
Proof.
  destruct p as [| | | | |l|dp]; try done.
  unfold decode_param, param_value.
  destruct (json_is_str (dict_get_default "name" (JStr "") dp) "weight").
  { destruct (py_float (default JNull (dict_get "value" dp))) as [w|]; [|done].
    intros [= <-]. done. }
  destruct (json_is_str (dict_get_default "name" (JStr "") dp) "totalWeight").
  { destruct (py_float (default JNull (dict_get "value" dp))) as [w|]; [|done].
    intros [= <-]. done. }
  destruct (json_is_str (dict_get_default "name" (JStr "") dp) "voter").
  { intros [= <-]. done. }
  destruct (json_is_str (dict_get_default "name" (JStr "") dp) "timestamp").
  { destruct (py_int (default JNull (dict_get "value" dp))) as [t|]; [|done].
    intros [= <-]. done. }
  intros [= <-]. done.
Qed.

(** The loop over the parameters: the last [weight] parameter wins. *)
Lemma decode_params_weight (ps : list json) (st st' : vote_vars) :
  decode_params ps st = Some st' →
  match last (omap (param_value "weight") ps) with
  | Some v => py_float v = Some (weight_val st') ∧ found_weight st' = true
  | None => weight_val st' = weight_val st ∧ found_weight st' = found_weight st
  end.
Proof.
  revert st. induction ps as [|p ps IH]; intros st H.
  - injection H as <-. done.
  - simpl in H. destruct (decode_param st p) as [st1|] eqn:Hp; [|done]. simpl in H.
    apply decode_param_weight in Hp. apply IH in H.
    change (omap (param_value "weight") (p :: ps))
      with (match param_value "weight" p with
            | Some v => v :: omap (param_value "weight") ps
            | None => omap (param_value "weight") ps
            end).
    destruct (param_value "weight" p) as [v|].
    + rewrite last_cons. destruct (last (omap (param_value "weight") ps)); [done|].
      destruct H as [-> ->]. done.
    + destruct (last (omap (param_value "weight") ps)); [done|].
      destruct H as [-> ->]. done.
Qed.












(** ** Orchestration *)

Lemma main_eq (fuel : nat) (w : world) (f : store) (new_locks new_votes : list dict)
    (rl rv : nat) :
  fetch_incremental fuel (lock_source w) lock_params (load_data f).1
    = Some (new_locks, rl) →
  fetch_incremental fuel (vote_source w) ∅ (load_data f).2 = Some (new_votes, rv) →
  main fuel w f
  = Some (if nonempty new_locks || nonempty new_votes
          then save_data (write_ok w) (new_locks ++ (load_data f).1)
                 (new_votes ++ (load_data f).2) f
          else f,
          out ← parse_data (new_locks ++ (load_data f).1)
                  (new_votes ++ (load_data f).2);
          Some (out, fetch_current_balance (balance_body w))).
Proof.
  unfold main. destruct (load_data f) as [el ev]. simpl fst. simpl snd.
  intros -> ->. reflexivity.
Qed.

Lemma main_inv (fuel : nat) (w : world) (f f' : store)
    (res : option (outputs * string)) :
  main fuel w f = Some (f', res) →
  ∃ new_locks new_votes rl rv,
    fetch_incremental fuel (lock_source w) lock_params (load_data f).1
      = Some (new_locks, rl)
    ∧ fetch_incremental fuel (vote_source w) ∅ (load_data f).2 = Some (new_votes, rv)
    ∧ f' = (if nonempty new_locks || nonempty new_votes
            then save_data (write_ok w) (new_locks ++ (load_data f).1)
                   (new_votes ++ (load_data f).2) f
            else f)
    ∧ res = (out ← parse_data (new_locks ++ (load_data f).1)
                     (new_votes ++ (load_data f).2);
             Some (out, fetch_current_balance (balance_body w))).
Proof.
  unfold main. destruct (load_data f) as [el ev]. simpl fst. simpl snd.
  destruct (fetch_incremental fuel (lock_source w) lock_params el)
    as [[new_locks rl]|]; [|done]. cbn [mbind option_bind].
  destruct (fetch_incremental fuel (vote_source w) ∅ ev)
    as [[new_votes rv]|]; [|done]. cbn [mbind option_bind].
  intros [= <- <-]. by exists new_locks, new_votes, rl, rv.
Qed.

(** What a run leaves behind when its write, if it makes one, succeeds: the
    tables it produced are those of the collections then in the file. *)
Lemma main_outputs_of_store (fuel : nat) (w : world) (f f' : store) (out : outputs)
    (bal : string) :
  (fetches_new fuel w f = true → write_ok w = true) →
  main fuel w f = Some (f', Some (out, bal)) →
  parse_data (load_data f').1 (load_data f').2 = Some out.
Proof.
  intros Hok Hrun.
  destruct (main_inv fuel w f f' _ Hrun) as (nl & nv & rl & rv & Hl & Hv & -> & Hres).
  unfold fetches_new in Hok. rewrite Hl, Hv in Hok.
  destruct (parse_data (nl ++ (load_data f).1) (nv ++ (load_data f).2))
    as [out'|] eqn:Hp; [|done].
  injection Hres as -> _.
  destruct (nonempty nl || nonempty nv) eqn:Hnew.
  - unfold save_data. by rewrite Hok.
  - apply orb_false_iff in Hnew as [Hnl Hnv].
    destruct nl; [|done]. by destruct nv.
Qed.

Lemma parse_data_is_Some (locks votes : list dict) :
  lock_list locks ≠ [] ∨ vote_list votes ≠ [] → is_Some (parse_data locks votes).
Proof.
  unfold parse_data. intros [H|H].
  - destruct (lock_list locks); [done|]. by eexists.
  - destruct (vote_list votes); [done|]. rewrite orb_true_r. by eexists.
Qed.

(** C9 (amended): from a persisted state for which both fetches return
    nothing new, the run leaves the file as it is (no save is made); when
    the stored collections yield a lock or a vote record it produces the
    tables of the stored collections, and these are the tables of the
    previous run that left this file, provided that run's write, if it
    made one, succeeded. *)
Theorem no_new_data_is_idempotent (fuel : nat) (w : world) (f : store) (rl rv : nat)
    (Hlocks : fetch_incremental fuel (lock_source w) lock_params (load_data f).1
              = Some ([], rl))
    (Hvotes : fetch_incremental fuel (vote_source w) ∅ (load_data f).2
              = Some ([], rv)) :
  (∃ res, main fuel w f = Some (f, res))
  ∧ (holds_record f →
     ∃ out, parse_data (load_data f).1 (load_data f).2 = Some out
       ∧ main fuel w f = Some (f, Some (out, fetch_current_balance (balance_body w))))
  ∧ ∀ fuel0 w0 f0 out0 bal0,
      (fetches_new fuel0 w0 f0 = true → write_ok w0 = true) →
      main fuel0 w0 f0 = Some (f, Some (out0, bal0)) →
      ∃ bal, main fuel w f = Some (f, Some (out0, bal)).
Proof.
  pose proof (main_eq fuel w f [] [] rl rv Hlocks Hvotes) as Hrun.
  cbn [nonempty orb app] in Hrun.
  split; [by eexists|]. split.
  - intros Hrec. destruct (parse_data_is_Some _ _ Hrec) as [out Hout].
    exists out. split; [done|]. by rewrite Hrun, Hout.
  - intros fuel0 w0 f0 out0 bal0 Hok Hprev.
    rewrite Hrun, (main_outputs_of_store fuel0 w0 f0 f out0 bal0 Hok Hprev).
    by eexists.
Qed.

End Properties.


(** ** Concrete instances *)

Lemma get_unique_id_first_truthy_witness :
  get_unique_id [("from", JStr "0xabc")] = "None_0".
Proof.
  apply (get_unique_id_first_truthy [("from", JStr "0xabc")]); reflexivity.
Defined.

(** C7 (as stated) fails under each reading of "present": an empty
    [tx_hash] is passed over although the key exists and is not null, and
    an index of [0] is used although it is not truthy. *)
Lemma get_unique_id_not_first_present :
  let a := [("tx_hash", JStr ""); ("transaction_hash", JStr "0xabc")] in
  let b := [("hash", JStr "0xabc"); ("index", JInt 0); ("log_index", JInt 5)] in
  get_unique_id a = "0xabc_0"
  ∧ identify_as_specified key_present a = "_0"
  ∧ identify_as_specified value_present a = "_0"
  ∧ get_unique_id b = "0xabc_0"
  ∧ identify_as_specified truthy_opt b = "0xabc_5".
Proof. repeat split; reflexivity. Qed.

(** ** The fetcher on a source of three pages of five items *)

Lemma scan_page_then_stop_witness :
  fetch_loop 1 (Example.paged_source Example.pages_3x5) 0 ∅
    {[get_unique_id (Example.transfer "0xa1" 2)]} []
  = Some ([Example.transfer "0xa1" 0; Example.transfer "0xa1" 1;
           Example.transfer "0xa1" 3; Example.transfer "0xa1" 4], 1%nat).
Proof.
  destruct (scan_page_then_stop 0 (Example.paged_source Example.pages_3x5) 0 ∅
              {[get_unique_id (Example.transfer "0xa1" 2)]} []
              (mkpage (Example.five "0xa1") [("page", JInt 1)]) eq_refl)
    as (_ & _ & _ & Hstop).
  apply Hstop. vm_compute. reflexivity.
Defined.

Lemma fetch_over_pages_witness :
  fetch_incremental 4 (Example.paged_source Example.pages_3x5) ∅
    [Example.transfer "0xa2" 2]
  = Some (Example.five "0xa1"
            ++ [Example.transfer "0xa2" 0; Example.transfer "0xa2" 1;
                Example.transfer "0xa2" 3; Example.transfer "0xa2" 4], 2%nat).
Proof.
  assert (presents (Example.paged_source Example.pages_3x5) 0 ∅ Example.pages_3x5)
    as Hsrc.
  { eexists. split; [reflexivity|]. simpl.
    eexists. split; [reflexivity|]. simpl.
    eexists. split; reflexivity. }
  assert (Forall (λ p : list dict, length p = 5%nat) Example.pages_3x5) as HK.
  { repeat constructor. }
  assert (NoDup (get_unique_id <$> concat Example.pages_3x5)) as Hkeys.
  { apply (bool_decide_unpack _). vm_compute. exact I. }
  assert (length Example.pages_3x5 < 4)%nat as Hfuel.
  { simpl. lia. }
  destruct (fetch_over_pages 4 _ ∅ 5 _ Hsrc HK Hkeys Hfuel) as [_ Hknown].
  apply (Hknown (Example.five "0xa1") (Example.five "0xa2") [Example.five "0xa3"]
           (Example.transfer "0xa2" 2)); [reflexivity|reflexivity|].
  simpl. apply set_eq. intros k. rewrite elem_of_union, elem_of_empty. tauto.
Defined.

(** C2 (as stated) fails: the items that follow the known item on its page
    are returned too, whichever way "page 2, position 3" is counted. *)
Lemma fetch_not_only_preceding :
  let src := Example.paged_source Example.pages_3x5 in
  let p1 := Example.five "0xa1" in
  let p2 := Example.five "0xa2" in
  let p3 := Example.five "0xa3" in
  (fetch_incremental 4 src ∅ [Example.transfer "0xa2" 2]
     = Some (p1 ++ take 2 p2 ++ drop 3 p2, 2%nat)
   ∧ p1 ++ take 2 p2 ++ drop 3 p2 ≠ p1 ++ take 2 p2)
  ∧ (fetch_incremental 4 src ∅ [Example.transfer "0xa3" 3]
     = Some (p1 ++ p2 ++ take 3 p3 ++ drop 4 p3, 3%nat)
     ∧ p1 ++ p2 ++ take 3 p3 ++ drop 4 p3 ≠ p1 ++ p2 ++ take 3 p3).
Proof.
  repeat split; try (vm_compute; reflexivity); vm_compute; discriminate.
Qed.

Lemma fetch_error_keeps_partial_witness :
  fetch_incremental 4 (Example.failing_from 1 Example.pages_3x5) ∅ []
  = Some (Example.five "0xa1", 2%nat).
Proof.
  refine (fetch_error_keeps_partial 4 (Example.failing_from 1 Example.pages_3x5) ∅ []
            (mkState 1 _ _ (Example.five "0xa1")) _ _ _).
  - eapply rtc_l; [|apply rtc_refl].
    refine (page_step_next _ (initial_state ∅ [])
              (mkpage (Example.five "0xa1") [("page", JInt 1)]) _ _ _ _ _ _).
    + reflexivity.
    + discriminate.
    + reflexivity.
    + reflexivity.
  - reflexivity.
  - simpl. lia.
Defined.

(** ** The normalisers and the tables on sample records *)

Lemma daily_table_dates_and_sums_witness :
  ∃ row, last (df_main (lock_list Example.sample_locks)
                 (vote_list [Example.voted_log_hex])) = Some row
    ∧ d_date row = mkdate 2024 3 2
    ∧ (d_cumulative_locks row
       == Qsum (l_amount <$> lock_list Example.sample_locks))%Q.
Proof.
  destruct (daily_table_dates_and_sums (lock_list Example.sample_locks)
              (vote_list [Example.voted_log_hex])) as (_ & _ & _ & _ & _ & _ & Hlast).
  destruct (last (df_main (lock_list Example.sample_locks)
                    (vote_list [Example.voted_log_hex]))) as [row|] eqn:E.
  - exists row. split; [reflexivity|]. split.
    + vm_compute in E. injection E as <-. reflexivity.
    + by apply Hlast.
  - vm_compute in E. discriminate.
Defined.



(** Likewise a log whose decoded parameters are null is skipped, whatever
    its data holds: the loop over the parameters raises. *)
Lemma vote_skipped_on_null_parameters :
  is_Some (voted_topics Example.voted_log_null_parameters)
  ∧ has_weight_param Example.voted_log_null_parameters = false
  ∧ weight_as_specified Example.voted_log_null_parameters
    = Some (inject_Z 3000000000000000000)
  ∧ data_word Example.voted_log_null_parameters 2 = Some 1700000100
  ∧ fromtimestamp 1700000100 = Some (mkdatetime (mkdate 2023 11 14) 22 15 0)
  ∧ ¬ decoded_readable Example.voted_log_null_parameters
  ∧ vote_of Example.voted_log_null_parameters = None.
Proof.
  split; [vm_compute; by eexists|].
  do 4 (split; [vm_compute; reflexivity|]).
  split; [|vm_compute; reflexivity].
  intros [[x Hx] _]. vm_compute in Hx. discriminate Hx.
Qed.

Lemma self_transfer_dropped_witness :
  lock_of Example.self_tx = None
  ∧ parse_data (Example.self_tx :: Example.sample_locks) []
    = parse_data Example.sample_locks [].
Proof.
  assert (lock_sender Example.self_tx
          = Some "0x3d4b1b884a7a1e59fe8589a3296ec8f8cbb6f279") as Hsender.
  { vm_compute. reflexivity. }
  assert (lower "0x3d4b1b884a7a1e59fe8589a3296ec8f8cbb6f279"
          = lower CONTRACT_ADDRESS) as Hself.
  { vm_compute. reflexivity. }
  destruct (self_transfer_dropped Example.self_tx _ Hsender Hself) as [Hdrop Hrest].
  split; [exact Hdrop|]. exact (proj2 (Hrest [] Example.sample_locks [])).
Defined.

Lemma missing_amount_is_zero_lock_witness :
  ∃ r, lock_of Example.no_amount_tx = Some r
    ∧ (l_amount r == 0)%Q ∧ l_cat r = "< 0.001" ∧ l_order r = 1.
Proof.
  assert (lock_instant Example.no_amount_tx
          = Some (mkdatetime (mkdate 2024 3 1) 10 20 30)) as Hts.
  { vm_compute. reflexivity. }
  assert (lock_sender Example.no_amount_tx = Some "0xabc") as Hsender.
  { vm_compute. reflexivity. }
  assert (lower "0xabc" ≠ lower CONTRACT_ADDRESS) as Hother.
  { vm_compute. discriminate. }
  assert (amount_missing Example.no_amount_tx) as Hamount.
  { right. left. vm_compute. reflexivity. }
  destruct (missing_amount_is_zero_lock Example.no_amount_tx _ _ Hts Hsender
              Hother Hamount) as (r & Hr & Ha & Hc & Ho & _).
  by exists r.
Defined.

Lemma no_new_data_is_idempotent_witness :
  ∃ out,
    parse_data (load_data Example.quiet_store).1 (load_data Example.quiet_store).2
    = Some out
    ∧ main 2 Example.quiet_world Example.quiet_store
      = Some (Example.quiet_store,
              Some (out, fetch_current_balance (balance_body Example.quiet_world))).
Proof.
  assert (fetch_incremental 2 (lock_source Example.quiet_world) lock_params
            (load_data Example.quiet_store).1 = Some ([], 1%nat)) as Hlocks.
  { vm_compute. reflexivity. }
  assert (fetch_incremental 2 (vote_source Example.quiet_world) ∅
            (load_data Example.quiet_store).2 = Some ([], 1%nat)) as Hvotes.
  { vm_compute. reflexivity. }
  assert (holds_record Example.quiet_store) as Hrec.
  { left. vm_compute. discriminate. }
  exact (proj1 (proj2 (no_new_data_is_idempotent 2 Example.quiet_world
                         Example.quiet_store 1 1 Hlocks Hvotes)) Hrec).
Defined.

(** C9 (as stated) fails in two ways. A run that fetched three locks and a
    vote but could not write the file showed tables that the next run,
    which finds the network down and the file as it was, does not show
    again. And a run that starts without a file and fetches nothing
    produces no tables at all: it ends in [parse_data]. *)
Lemma rerun_differs_after_failed_save :
  (∃ out0 bal0 out bal,
     main 2 Example.readonly_world Example.quiet_store
     = Some (Example.quiet_store, Some (out0, bal0))
     ∧ fetch_incremental 2 (lock_source Example.offline_world) lock_params
         (load_data Example.quiet_store).1 = Some ([], 1%nat)
     ∧ fetch_incremental 2 (vote_source Example.offline_world) ∅
         (load_data Example.quiet_store).2 = Some ([], 1%nat)
     ∧ main 2 Example.offline_world Example.quiet_store
       = Some (Example.quiet_store, Some (out, bal))
     ∧ length (out_raw_locks out0) = 3%nat ∧ length (out_raw_locks out) = 1%nat
     ∧ out ≠ out0)
  ∧ fetch_incremental 2 (lock_source Example.offline_world) lock_params
      (load_data NoFile).1 = Some ([], 1%nat)
  ∧ fetch_incremental 2 (vote_source Example.offline_world) ∅
      (load_data NoFile).2 = Some ([], 1%nat)
  ∧ main 2 Example.offline_world NoFile = Some (NoFile, None).
Proof.
  split; [|repeat split; vm_compute; reflexivity].
  assert (∃ out0 bal0,
            main 2 Example.readonly_world Example.quiet_store
            = Some (Example.quiet_store, Some (out0, bal0))
            ∧ length (out_raw_locks out0) = 3%nat) as (out0 & bal0 & H0 & L0).
  { vm_compute. eexists _, _. split; reflexivity. }
  assert (∃ out bal,
            main 2 Example.offline_world Example.quiet_store
            = Some (Example.quiet_store, Some (out, bal))
            ∧ length (out_raw_locks out) = 1%nat) as (out & bal & H1 & L1).
  { vm_compute. eexists _, _. split; reflexivity. }
  exists out0, bal0, out, bal.
  split; [exact H0|]. split; [vm_compute; reflexivity|].
  split; [vm_compute; reflexivity|]. split; [exact H1|].
  split; [exact L0|]. split; [exact L1|].
  intros ->. rewrite L0 in L1. discriminate L1.
Qed.

(** * Further properties of the program *)

Section Fetcher.
Context `{B : Builtins}.

(** ** What a fetch can return *)

(** The items a page adds have distinct keys, none of them known before,
    and all come from the page. *)
Lemma page_new_fresh (its : list dict) (ids : gset string) :
  NoDup (get_unique_id <$> page_new its ids)
  ∧ ∀ x, x ∈ page_new its ids → (get_unique_id x ∉ ids) ∧ x ∈ its.
Proof.
  revert ids. induction its as [|x its IH]; intros ids.
  - split; [constructor|]. intros x Hx. by apply elem_of_nil in Hx.
  - rewrite page_new_cons. case_bool_decide as Hin.
    + destruct (IH ids) as [Hnd Hall]. split; [done|].
      intros y Hy. destruct (Hall y Hy). split; [done|by right].
    + destruct (IH ({[get_unique_id x]} ∪ ids)) as [Hnd Hall]. split.
      * rewrite fmap_cons. apply NoDup_cons. split; [|done].
        intros Hx. apply list_elem_of_fmap in Hx as (y & Hk & Hy).
        destruct (Hall y Hy) as [Hfresh _]. set_solver.
      * intros y Hy. apply elem_of_cons in Hy as [->|Hy]; [split; [done|left]|].
        destruct (Hall y Hy) as [Hfresh ?]. split; [set_solver|by right].
Qed.

(** After a page, the known keys are the former ones and those of the
    items added. *)
Lemma page_ids_new (its : list dict) (ids : gset string) :
  page_ids its ids = ids ∪ list_to_set (get_unique_id <$> page_new its ids).
Proof.
  revert ids. induction its as [|x its IH]; intros ids.
  - unfold page_ids, page_new. simpl. set_solver.
  - rewrite page_ids_cons, page_new_cons. case_bool_decide; rewrite IH; set_solver.
Qed.

Lemma loop_inv_page (ids0 ids : gset string) (acc its : list dict) :
  loop_inv ids0 ids acc →
  loop_inv ids0 (page_ids its ids) (acc ++ page_new its ids).
Proof.
  intros (Hids & Hnd & Hfresh).
  destruct (page_new_fresh its ids) as [Hndp Hall].
  split; [|split].
  - rewrite page_ids_new, fmap_app, list_to_set_app_L, Hids. set_solver.
  - rewrite fmap_app. apply NoDup_app. split; [done|]. split; [|done].
    intros k Hk Hk'. apply list_elem_of_fmap in Hk' as (y & -> & Hy).
    destruct (Hall y Hy) as [Hn _]. apply Hn. rewrite Hids.
    apply elem_of_union. right. by apply elem_of_list_to_set.
  - intros x Hx. apply elem_of_app in Hx as [Hx|Hx]; [by apply Hfresh|].
    destruct (Hall x Hx) as [Hn _]. rewrite Hids in Hn. set_solver.
Qed.

Lemma fetch_loop_inv (src : remote) (ids0 : gset string) (fuel : nat) :
  ∀ n params ids acc res r,
    loop_inv ids0 ids acc →
    fetch_loop fuel src n params ids acc = Some (res, r) →
    (∃ more, res = acc ++ more)
    ∧ NoDup (get_unique_id <$> res)
    ∧ (∀ x, x ∈ res → get_unique_id x ∉ ids0)
    ∧ (n < r ≤ n + fuel)%nat.
Proof.
  induction fuel as [|fuel IH]; intros n params ids acc res r Hinv Hrun; [done|].
  simpl in Hrun.
  assert (∀ res' r', loop_inv ids0 ids acc → Some (acc, S n) = Some (res', r') →
            (∃ more, res' = acc ++ more)
            ∧ NoDup (get_unique_id <$> res')
            ∧ (∀ x, x ∈ res' → get_unique_id x ∉ ids0)
            ∧ (n < r' ≤ n + S fuel)%nat) as Hstop.
  { intros res' r' (_ & Hnd & Hfresh) [= <- <-].
    split; [exists []; by rewrite app_nil_r|]. split; [done|]. split; [done|lia]. }
  destruct (src n params) as [|pg]; [by apply Hstop|].
  destruct (items pg) as [|x its] eqn:Hits; [by apply Hstop|].
  rewrite scan_page_acc in Hrun. simpl in Hrun.
  pose proof (loop_inv_page ids0 ids acc (x :: its) Hinv) as Hinv'.
  assert (∀ res' r', Some (acc ++ page_new (x :: its) ids, S n) = Some (res', r') →
            (∃ more, res' = acc ++ more)
            ∧ NoDup (get_unique_id <$> res')
            ∧ (∀ x, x ∈ res' → get_unique_id x ∉ ids0)
            ∧ (n < r' ≤ n + S fuel)%nat) as Hstop'.
  { intros res' r' [= <- <-]. destruct Hinv' as (_ & Hnd & Hfresh).
    split; [by eexists|]. split; [done|]. split; [done|lia]. }
  destruct (page_stop (x :: its) ids); [by apply Hstop'|].
  destruct (match next_page_params pg with [] => false | _ :: _ => true end);
    [|by apply Hstop'].
  destruct (IH _ _ _ _ _ _ Hinv' Hrun) as ((more & ->) & Hnd & Hfresh & Hr).
  split; [exists (page_new (x :: its) ids ++ more); by rewrite app_assoc|].
  split; [done|]. split; [done|lia].
Qed.

(** X1: whatever the source answers, the items returned by a fetch have
    pairwise distinct keys and none of them has the key of an existing
    item; together with existing items of distinct keys they still have
    distinct keys. The number of requests made is between 1 and the number
    of iterations allowed. *)
Theorem fetch_returns_only_unseen (fuel : nat) (src : remote)
    (params : gmap string json) (existing_items res : list dict) (r : nat)
    (Hrun : fetch_incremental fuel src params existing_items = Some (res, r)) :
  NoDup (get_unique_id <$> res)
  ∧ (∀ x y, x ∈ res → y ∈ existing_items → get_unique_id x ≠ get_unique_id y)
  ∧ (NoDup (get_unique_id <$> existing_items) →
     NoDup (get_unique_id <$> (res ++ existing_items)))
  ∧ (1 ≤ r ≤ fuel)%nat.
Proof.
  unfold fetch_incremental in Hrun.
  apply (fetch_loop_inv src (list_to_set (get_unique_id <$> existing_items)))
    in Hrun as (_ & Hnd & Hfresh & Hr).
  - assert (∀ x y, x ∈ res → y ∈ existing_items →
              get_unique_id x ≠ get_unique_id y) as Hdisj.
    { intros x y Hx Hy Heq. apply (Hfresh x Hx). rewrite Heq.
      apply elem_of_list_to_set. by apply list_elem_of_fmap_2. }
    split; [done|]. split; [done|]. split; [|lia].
    intros Hnde. rewrite fmap_app. apply NoDup_app. split; [done|]. split; [|done].
    intros k Hk Hk'. apply list_elem_of_fmap in Hk as (x & -> & Hx).
    apply list_elem_of_fmap in Hk' as (y & Heq & Hy). by apply (Hdisj x y).
  - split; [set_solver|]. split; [constructor|].
    intros x Hx. by apply elem_of_nil in Hx.
Qed.

Lemma fetch_loop_S (fuel : nat) (src : remote) (n : nat)
    (params : gmap string json) (ids : gset string) (acc : list dict) :
  fetch_loop (S fuel) src n params ids acc
  = match src n params with
    | Failed => Some (acc, S n)
    | Body pg =>
        match items pg with
        | [] => Some (acc, S n)
        | _ :: _ =>
            let '(ids', new', stop_fetching) := scan_page (items pg) ids acc false in
            if stop_fetching then Some (new', S n)
            else if truthy (JObj (next_page_params pg)) then
              fetch_loop fuel src (S n) (params_update params (next_page_params pg))
                ids' new'
            else Some (new', S n)
        end
    end.
Proof. reflexivity. Qed.

(** A page of known items only adds nothing and sets the mark. *)
Lemma page_all_known (its : list dict) (ids : gset string) :
  (∀ x, x ∈ its → get_unique_id x ∈ ids) →
  page_new its ids = [] ∧ (its ≠ [] → page_stop its ids = true).
Proof.
  induction its as [|x its IH]; intros Hknown; [done|].
  rewrite page_new_cons, page_stop_cons.
  rewrite bool_decide_eq_true_2 by (apply Hknown; left).
  split; [|done]. apply IH. intros y Hy. apply Hknown. by right.
Qed.

(** X2: a source that answers every request with the same non-empty page
    cannot keep the fetch going: the second time every item is known, so
    the fetch returns what the page added the first time, after at most two
    requests. *)
Theorem repeated_page_ends_fetch (fuel : nat) (src : remote) (pg : page)
    (params : gmap string json) (existing_items : list dict)
    (Hsame : ∀ n p, src n p = Body pg)
    (Hpage : items pg ≠ [])
    (Hfuel : (2 ≤ fuel)%nat) :
  ∃ r, (r ≤ 2)%nat
    ∧ fetch_incremental fuel src params existing_items
      = Some (page_new (items pg)
                (list_to_set (get_unique_id <$> existing_items)), r).
Proof.
  destruct fuel as [|[|fuel]]; [lia..|].
  unfold fetch_incremental. rewrite fetch_loop_S, Hsame.
  destruct (items pg) as [|x its] eqn:Hits; [done|].
  rewrite scan_page_acc. cbn [fst snd orb app].
  destruct (page_stop (x :: its) _); [exists 1%nat; split; [lia|done]|].
  destruct (truthy (JObj (next_page_params pg)));
    [|exists 1%nat; split; [lia|done]].
  exists 2%nat. split; [lia|].
  rewrite (fetch_loop_caught_up fuel src 1 _ _ _ pg (Hsame _ _)).
  - rewrite Hits.
    destruct (page_all_known (x :: its)
                (page_ids (x :: its)
                   (list_to_set (get_unique_id <$> existing_items)))) as [-> _].
    + intros y Hy. rewrite page_ids_union. apply elem_of_union. right.
      apply elem_of_list_to_set. by apply list_elem_of_fmap_2.
    + by rewrite app_nil_r.
  - rewrite Hits.
    apply (page_all_known (x :: its)); [|done].
    intros y Hy. rewrite page_ids_union. apply elem_of_union. right.
    apply elem_of_list_to_set. by apply list_elem_of_fmap_2.
Qed.

Lemma filter_unknown_more (its : list dict) (ids more : gset string) :
  (∀ x, x ∈ its → get_unique_id x ∉ more) →
  filter (λ x, get_unique_id x ∉ ids ∪ more) its
  = filter (λ x, get_unique_id x ∉ ids) its.
Proof.
  induction its as [|y its IH]; intros Hmore; [done|].
  rewrite !filter_cons, IH by (intros z Hz; apply Hmore; by right).
  pose proof (Hmore y (list_elem_of_here _ _)) as Hy.
  destruct (decide (get_unique_id y ∉ ids ∪ more)) as [H1|H1],
    (decide (get_unique_id y ∉ ids)) as [H2|H2]; try done; set_solver.
Qed.

Lemma fetch_loop_until_known (src : remote) (p : list dict) (after : list (list dict))
    (before : list (list dict)) :
  Forall (λ q, q ≠ []) before →
  ∀ n params ids acc fuel,
    presents src n params (before ++ p :: after) →
    NoDup (get_unique_id <$> (concat before ++ p)) →
    (∀ x, x ∈ concat before → get_unique_id x ∉ ids) →
    (∃ x, x ∈ p ∧ get_unique_id x ∈ ids) →
    (length before < fuel)%nat →
    fetch_loop fuel src n params ids acc
    = Some (acc ++ concat before ++ filter (λ x, get_unique_id x ∉ ids) p,
            S (n + length before)).
Proof.
  induction 1 as [|b before Hb _ IH];
    intros n params ids acc fuel Hsrc Hnd Hfresh Hknown Hfuel;
    (destruct fuel as [|fuel]; [simpl in Hfuel; lia|]).
  - simpl in Hsrc, Hnd. destruct Hsrc as (nx & Hreq & _).
    destruct (page_distinct_keys p ids Hnd) as [Hnew Hstop].
    rewrite (fetch_loop_caught_up fuel src n params ids acc _ Hreq).
    + simpl. rewrite Hnew. do 2 f_equal. lia.
    + simpl. by apply Hstop.
  - simpl in Hsrc. destruct Hsrc as (nx & Hreq & Hcont).
    simpl in Hnd, Hfresh. rewrite <- app_assoc, fmap_app in Hnd.
    apply NoDup_app in Hnd as (Hndb & Hdisj & Hndr).
    destruct (page_all_fresh b ids Hndb) as [Hnew Hstop].
    { intros y Hy. apply Hfresh, elem_of_app. by left. }
    rewrite fetch_loop_S, Hreq. simpl items.
    destruct b as [|y b'] eqn:Eb; [done|]. rewrite <- Eb in *.
    rewrite scan_page_acc, Hnew, Hstop, page_ids_union. cbn [orb].
    destruct (truthy (JObj nx)) eqn:Hnx.
    + simpl next_page_params. rewrite Hnx.
      rewrite (IH (S n) _ (ids ∪ list_to_set (get_unique_id <$> b)) (acc ++ b) fuel);
        try done.
      * simpl. rewrite filter_unknown_more.
        -- rewrite <- !app_assoc. do 3 f_equal. lia.
        -- intros x Hx Hk. apply elem_of_list_to_set in Hk.
           apply (Hdisj _ Hk). apply list_elem_of_fmap_2, elem_of_app. by right.
      * simpl in Hnx. by rewrite Hnx in Hcont.
      * intros x Hx Hk. apply elem_of_union in Hk as [Hk|Hk].
        -- apply (Hfresh x); [|done]. apply elem_of_app. by right.
        -- apply elem_of_list_to_set in Hk. apply (Hdisj _ Hk).
           apply list_elem_of_fmap_2, elem_of_app. by left.
      * destruct Hknown as (x & Hx & Hk). exists x. split; [done|set_solver].
      * simpl in Hfuel. lia.
    + simpl in Hnx. rewrite Hnx in Hcont. by destruct before.
Qed.

(** X3: when the source presents pages of distinct keys and a page holds an
    item whose key is known while no earlier page does, the fetch returns
    the earlier pages and the unknown items of that page, and requests
    nothing further: items on later pages are never fetched, new or not. *)
Theorem fetch_stops_at_first_known_page (fuel : nat) (src : remote)
    (params : gmap string json) (existing_items : list dict)
    (before : list (list dict)) (p : list dict) (after : list (list dict))
    (Hsrc : presents src 0 params (before ++ p :: after))
    (Hbefore : Forall (λ q, q ≠ []) before)
    (Hkeys : NoDup (get_unique_id <$> (concat before ++ p)))
    (Hnew : ∀ x y, x ∈ concat before → y ∈ existing_items →
              get_unique_id x ≠ get_unique_id y)
    (Hknown : ∃ x y, x ∈ p ∧ y ∈ existing_items
                ∧ get_unique_id x = get_unique_id y)
    (Hfuel : (length before < fuel)%nat) :
  fetch_incremental fuel src params existing_items
  = Some (concat before
            ++ filter (λ x, get_unique_id x
                              ∉ (list_to_set (get_unique_id <$> existing_items)
                                 : gset string)) p,
          S (length before)).
Proof.
  unfold fetch_incremental.
  rewrite (fetch_loop_until_known src p after before Hbefore 0 params _ [] fuel);
    try done.
  - intros x Hx Hk. apply elem_of_list_to_set, list_elem_of_fmap in Hk
      as (y & Heq & Hy). by apply (Hnew x y).
  - destruct Hknown as (x & y & Hx & Hy & Heq). exists x. split; [done|].
    rewrite Heq. apply elem_of_list_to_set. by apply list_elem_of_fmap_2.
Qed.

Lemma second_fetch_nothing_new (fuel : nat) (src : remote)
    (params : gmap string json) (existing_items res : list dict) (r : nat) :
  fetch_incremental fuel src params existing_items = Some (res, r) →
  fetch_incremental fuel src params (res ++ existing_items) = Some ([], 1%nat).
Proof.
  intros Hrun.
  unfold fetch_incremental in *.
  destruct fuel as [|fuel]; [done|].
  rewrite fetch_loop_S in Hrun. rewrite fetch_loop_S.
  destruct (src 0%nat params) as [|pg] eqn:Hreq.
  { by injection Hrun as <- <-. }
  destruct (items pg) as [|x its] eqn:Hits.
  { by injection Hrun as <- <-. }
  rewrite scan_page_acc in Hrun. cbn [orb app] in Hrun.
  set (ids0 := list_to_set (get_unique_id <$> existing_items) : gset string) in *.
  assert (∃ more, res = page_new (x :: its) ids0 ++ more) as [more Hres].
  { destruct (page_stop (x :: its) ids0).
    - injection Hrun as <- _. exists []. by rewrite app_nil_r.
    - destruct (truthy (JObj (next_page_params pg))).
      + apply (fetch_loop_inv src ids0) in Hrun as ((more & ->) & _); [by eexists|].
        apply (loop_inv_page ids0 ids0 [] (x :: its)).
        split; [set_solver|]. split; [constructor|].
        intros y Hy. by apply elem_of_nil in Hy.
      + injection Hrun as <- _. exists []. by rewrite app_nil_r. }
  destruct (page_all_known (x :: its)
              (list_to_set (get_unique_id <$> (res ++ existing_items))))
    as [Hnew Hstop].
  { intros y Hy.
    assert (get_unique_id y ∈ page_ids (x :: its) ids0) as Hk.
    { rewrite page_ids_union. apply elem_of_union. right.
      apply elem_of_list_to_set. by apply list_elem_of_fmap_2. }
    rewrite page_ids_new in Hk. rewrite Hres, !fmap_app, !list_to_set_app_L.
    unfold ids0 in Hk. set_solver. }
  rewrite scan_page_acc, Hnew, (Hstop ltac:(done)). reflexivity.
Qed.

(** X18: fetching again from an unchanged source, with what the first
    fetch returned added to the existing items, returns nothing new after a
    single request. *)
Theorem second_fetch_finds_nothing (fuel : nat) (src : remote)
    (params : gmap string json) (existing_items res : list dict) (r : nat)
    (Hrun : fetch_incremental fuel src params existing_items = Some (res, r)) :
  fetch_incremental fuel src params (res ++ existing_items) = Some ([], 1%nat).
Proof. by apply (second_fetch_nothing_new fuel src params existing_items res r). Qed.

End Fetcher.

Section Identity.
Context `{B : Builtins}.

(** ** Record keys *)

Lemma get_unique_id_parts (item : dict) :
  get_unique_id item
  = py_str_opt (transaction_identifier item) +:+ "_" +:+ py_str (index_field item).
Proof.
  unfold get_unique_id, transaction_identifier, index_field, py_or,
    dict_get_default, key_present. simpl.
  destruct (dict_get "tx_hash" item) as [v1|]; simpl;
    destruct (dict_get "transaction_hash" item) as [v2|]; simpl;
    destruct (dict_get "index" item) as [i1|]; simpl;
    destruct (dict_get "log_index" item) as [i2|]; simpl;
    repeat case_match; simpl; done.
Qed.

Lemma append_nil_l (s : string) : "" +:+ s = s.
Proof. reflexivity. Qed.

Lemma append_cons (c : ascii) (s t : string) :
  String c s +:+ t = String c (s +:+ t).
Proof. reflexivity. Qed.

Lemma has_char_app (c : ascii) (s t : string) :
  has_char c (s +:+ t) = has_char c s || has_char c t.
Proof.
  induction s as [|a s IH]; [done|].
  rewrite append_cons. simpl. rewrite IH. by rewrite orb_assoc.
Qed.

Lemma pretty_N_go_no_underscore (x : N) (s : string) :
  has_char "_" s = false → has_char "_" (pretty_N_go x s) = false.
Proof.
  revert s. induction (N.lt_wf_0 x) as [x _ IH]. intros s Hs.
  destruct (decide (x = 0)%N) as [->|Hx]; [by rewrite pretty_N_go_0|].
  rewrite pretty_N_go_step by lia. apply IH.
  - apply N.div_lt; lia.
  - simpl. rewrite Hs, orb_false_r. unfold pretty_N_char.
    by repeat case_match.
Qed.

Lemma pretty_N_no_underscore (x : N) : has_char "_" (pretty x) = false.
Proof.
  unfold pretty, pretty_N. case_decide; [done|].
  by apply pretty_N_go_no_underscore.
Qed.

(** The decimal text of an integer holds no underscore. *)
Lemma pretty_Z_no_underscore (z : Z) : has_char "_" (pretty z) = false.
Proof.
  destruct z as [|p|p]; [done| |].
  - change (pretty (Z.pos p)) with (pretty (N.pos p)).
    apply pretty_N_no_underscore.
  - change (pretty (Z.neg p)) with ("-" +:+ pretty (N.pos p)).
    rewrite has_char_app, pretty_N_no_underscore. reflexivity.
Qed.

(** Text joined by an underscore to text without one splits in one way. *)
Lemma underscore_join_inj (a1 a2 d1 d2 : string) :
  has_char "_" d1 = false → has_char "_" d2 = false →
  a1 +:+ "_" +:+ d1 = a2 +:+ "_" +:+ d2 → a1 = a2 ∧ d1 = d2.
Proof.
  intros H1 H2. revert a2. induction a1 as [|c a1 IH]; intros [|c' a2] Heq;
    repeat (rewrite append_nil_l in Heq || rewrite append_cons in Heq).
  - by injection Heq as ->.
  - injection Heq as <- ->.
    rewrite has_char_app in H1. simpl in H1.
    by rewrite orb_true_r in H1.
  - injection Heq as -> <-.
    rewrite has_char_app in H2. simpl in H2.
    by rewrite orb_true_r in H2.
  - injection Heq as -> Heq.
    destruct (IH a2 Heq) as [-> ->]. done.
Qed.

(** X4: on items whose transaction identifier is text and whose index is
    an integer, the key identifies the pair: two items have the same key
    exactly when they have the same identifier and the same index. *)
Theorem get_unique_id_injective (i1 i2 : dict) (h1 h2 : string) (z1 z2 : Z)
    (Hh1 : transaction_identifier i1 = Some (JStr h1))
    (Hz1 : index_field i1 = JInt z1)
    (Hh2 : transaction_identifier i2 = Some (JStr h2))
    (Hz2 : index_field i2 = JInt z2) :
  get_unique_id i1 = get_unique_id i2 ↔ h1 = h2 ∧ z1 = z2.
Proof.
  rewrite !get_unique_id_parts, Hh1, Hz1, Hh2, Hz2. simpl. split.
  - intros Heq.
    apply underscore_join_inj in Heq as [-> Hz];
      [|apply pretty_Z_no_underscore..].
    split; [done|]. by apply (inj pretty).
  - by intros [-> ->].
Qed.

End Identity.

Section Normalisers.
Context `{B : Builtins}.

(** ** Lock records *)

Lemma lock_of_inv (tx : dict) (r : LockRecord) :
  lock_of tx = Some r →
  ∃ dt amount sender,
    lock_instant tx = Some dt ∧ lock_amount tx = Some amount
    ∧ lock_sender tx = Some sender
    ∧ lower sender ≠ lower CONTRACT_ADDRESS
    ∧ r = mkLock (dt_date dt) dt amount "lock" sender
            (size_bucket amount).1 (size_bucket amount).2.
Proof.
  unfold lock_of.
  destruct (lock_instant tx) as [dt|]; [|done]. cbn [mbind option_bind].
  destruct (lock_amount tx) as [amount|]; [|done]. cbn [mbind option_bind].
  destruct (lock_sender tx) as [sender|]; [|done]. cbn [mbind option_bind].
  destruct (String.eqb (lower sender) (lower CONTRACT_ADDRESS)) eqn:E; [done|].
  apply String.eqb_neq in E.
  destruct (size_bucket amount) as [cat order] eqn:Eb. intros [= <-].
  exists dt, amount, sender. by rewrite Eb.
Qed.

Lemma lock_instant_inv (tx : dict) (dt : datetime) :
  lock_instant tx = Some dt →
  ∃ s, dict_get "timestamp" tx = Some (JStr s) ∧ s ≠ "" ∧ parse_iso s = Some dt.
Proof.
  unfold lock_instant.
  destruct (dict_get "timestamp" tx) as [ts|]; [|done]. cbn [mbind option_bind].
  destruct (truthy ts) eqn:Ht; [|done].
  destruct ts as [| | | |s| |]; try done. cbn [as_str mbind option_bind].
  intros Hp. exists s. split; [done|]. split; [|done].
  intros ->. done.
Qed.

(** X5: every record of [lock_list] comes from an item whose timestamp is
    non-empty text that parses to the record's instant; its date is the
    date of that instant, its category and order are the bucket of its
    amount, its order lies between 1 and 5, and its sender is not the
    contract address, letter case aside. *)
Theorem lock_records_well_formed (locks : list dict) (r : LockRecord)
    (Hr : r ∈ lock_list locks) :
  (∃ tx s, tx ∈ locks ∧ lock_of tx = Some r
     ∧ dict_get "timestamp" tx = Some (JStr s) ∧ s ≠ ""
     ∧ parse_iso s = Some (l_ts r))
  ∧ l_date r = dt_date (l_ts r)
  ∧ (l_cat r, l_order r) = size_bucket (l_amount r)
  ∧ 1 ≤ l_order r ≤ 5
  ∧ lower (l_sender r) ≠ lower CONTRACT_ADDRESS
  ∧ l_type r = "lock".
Proof.
  apply list_elem_of_omap in Hr as (tx & Htx & Hof).
  destruct (lock_of_inv tx r Hof) as (dt & amount & sender & Hts & _ & _ & Hne & ->).
  destruct (lock_instant_inv tx dt Hts) as (s & Hget & Hs & Hp).
  split; [by exists tx, s|]. simpl.
  split; [done|]. split; [by destruct (size_bucket amount)|].
  split; [|done].
  unfold size_bucket. repeat case_match; simpl; lia.
Qed.

Lemma Qltb_proper (a b c : Q) : (a == b)%Q → Qltb a c = Qltb b c.
Proof.
  intros Hab. destruct (Qltb a c) eqn:E1, (Qltb b c) eqn:E2; try done.
  - apply Qltb_lt in E1. apply Qltb_ge in E2. rewrite Hab in E1. lra.
  - apply Qltb_ge in E1. apply Qltb_lt in E2. rewrite Hab in E1. lra.
Qed.

(** X6: the bucket depends on the value of the amount only, not on the
    fraction that represents it; a larger amount never falls in a lower
    bucket; and the order of a bucket determines its category. *)
Theorem size_bucket_monotone (a b : Q) :
  ((a == b)%Q → size_bucket a = size_bucket b)
  ∧ ((a <= b)%Q → (size_bucket a).2 ≤ (size_bucket b).2)
  ∧ ((size_bucket a).2 = (size_bucket b).2 → (size_bucket a).1 = (size_bucket b).1).
Proof.
  split; [|split].
  - intros Hab. unfold size_bucket. by rewrite !(Qltb_proper a b).
  - intros Hab. unfold size_bucket.
    repeat case_match; simpl; try lia; exfalso;
      repeat match goal with
             | H : Qltb _ _ = true |- _ => apply Qltb_lt in H
             | H : Qltb _ _ = false |- _ => apply Qltb_ge in H
             end; lra.
  - unfold size_bucket. repeat case_match; simpl; intros; done.
Qed.

(** ** Timestamps *)

Lemma split_head_absent (c : ascii) (s t : string) :
  has_char c s = false → split_head c (s +:+ String c t) = s.
Proof.
  induction s as [|a s IH]; intros Hs.
  - rewrite append_nil_l. simpl. by rewrite Ascii.eqb_refl.
  - rewrite append_cons. simpl in *.
    apply orb_false_iff in Hs as [Ha Hs]. rewrite Ha. f_equal. by apply IH.
Qed.

Lemma remove_char_absent (c : ascii) (s : string) :
  has_char c s = false → remove_char c s = s.
Proof.
  induction s as [|a s IH]; intros Hs; [done|]. simpl in *.
  apply orb_false_iff in Hs as [Ha Hs]. rewrite Ha. f_equal. by apply IH.
Qed.

Lemma strip_trailing_Z (s : string) :
  remove_char "Z" (split_head "." (s +:+ "Z")) = remove_char "Z" (split_head "." s).
Proof.
  induction s as [|a s IH]; [done|].
  rewrite append_cons. simpl.
  destruct (Ascii.eqb a "."); [done|]. simpl.
  destruct (Ascii.eqb a "Z"); [done|]. by f_equal.
Qed.

(** X7: an instant is parsed from the text before the first dot with every
    "Z" removed: a fraction of seconds (and whatever follows it) is
    ignored, and so is a trailing "Z". *)
Theorem parse_iso_ignores_fraction_and_zone (base : string)
    (Hdot : has_char "." base = false) (Hz : has_char "Z" base = false) :
  (∀ frac, parse_iso (base +:+ "." +:+ frac) = strptime_iso base)
  ∧ parse_iso (base +:+ "Z") = strptime_iso base
  ∧ parse_iso base = strptime_iso base
  ∧ ∀ s, parse_iso (s +:+ "Z") = parse_iso s.
Proof.
  assert (parse_iso base = strptime_iso base) as Hbase.
  { unfold parse_iso.
    assert (split_head "." base = base) as ->.
    { clear Hz. induction base as [|a s IH]; [done|]. simpl in *.
      apply orb_false_iff in Hdot as [Ha Hs]. rewrite Ha. f_equal. by apply IH. }
    by rewrite remove_char_absent. }
  assert (∀ s, parse_iso (s +:+ "Z") = parse_iso s) as Hzone.
  { intros s. unfold parse_iso. by rewrite strip_trailing_Z. }
  split; [|split; [|split]]; [|by rewrite Hzone|done|done].
  intros frac. unfold parse_iso.
  change (base +:+ "." +:+ frac) with (base +:+ String "." frac).
  by rewrite split_head_absent, remove_char_absent.
Qed.

(** ** Item shapes *)

(** X8: a transfer whose total is given bare and whose sender is given as
    text is normalised like the one that nests them under [value] and
    [hash], the timestamp being the same. *)
Theorem lock_of_bare_or_nested (tx1 tx2 : dict) (v : json) (s : string)
    (d df : dict)
    (Hts : dict_get "timestamp" tx1 = dict_get "timestamp" tx2)
    (Hbare : dict_get "total" tx1 = Some v)
    (Hplain : ∀ d', v ≠ JObj d')
    (Hnested : dict_get "total" tx2 = Some (JObj d))
    (Hvalue : dict_get "value" d = Some v)
    (Hfrom1 : dict_get "from" tx1 = Some (JStr s))
    (Hfrom2 : dict_get "from" tx2 = Some (JObj df))
    (Hhash : dict_get "hash" df = Some (JStr s)) :
  lock_of tx1 = lock_of tx2.
Proof.
  assert (lock_instant tx1 = lock_instant tx2) as Hi.
  { unfold lock_instant. by rewrite Hts. }
  assert (lock_amount tx1 = lock_amount tx2) as Ha.
  { unfold lock_amount, lock_raw_val. rewrite Hbare, Hnested, Hvalue.
    destruct v; try done. by destruct (Hplain d0). }
  assert (lock_sender tx1 = lock_sender tx2) as Hs.
  { unfold lock_sender, lock_sender_val, dict_get_default.
    by rewrite Hfrom1, Hfrom2, Hhash. }
  unfold lock_of. by rewrite Hi, Ha, Hs.
Qed.

(** ** Vote records *)

Lemma vote_of_inv (log : dict) (r : VoteRecord) :
  vote_of log = Some r →
  ∃ st dt,
    vote_extract log = Some st ∧ vote_instant log st = Some dt
    ∧ found_weight st = true ∧ (0 < weight_val st)%Q
    ∧ r = mkVote (dt_date dt) dt (weight_val st / unit_scale)%Q
            (total_weight_val st / unit_scale)%Q (voter_addr st) "vote".
Proof.
  unfold vote_of.
  destruct (vote_extract log) as [st|]; [|done]. cbn [mbind option_bind].
  destruct (vote_instant log st) as [dt|] eqn:Hdt; [|done].
  cbn [mbind option_bind].
  destruct (found_weight st) eqn:Hf; cbn [andb]; [|done].
  destruct (Qltb 0 (weight_val st)) eqn:Hpos; [|done].
  apply Qltb_lt in Hpos. intros [= <-]. by exists st, dt.
Qed.

Lemma voted_topics_inv (log : dict) (topics : list json) :
  voted_topics log = Some topics →
  ∃ rest, topics = JStr VOTED_TOPIC_0 :: rest
    ∧ dict_get "topics" log = Some (JArr topics).
Proof.
  unfold voted_topics, dict_get_default.
  destruct (dict_get "topics" log) as [[| | | | |[|t0 rest]|]|]; try done.
  destruct t0 as [| | | |s| |]; try done. simpl.
  destruct (String.eqb s VOTED_TOPIC_0) eqn:E; [|done].
  apply String.eqb_eq in E. subst s. intros [= <-]. by exists rest.
Qed.

Lemma unit_scale_pos : (0 < unit_scale)%Q.
Proof. reflexivity. Qed.

(** X9: every record of [vote_list] comes from a log whose first topic is
    the Voted signature; its voting power is strictly positive, its date is
    the date of its instant. *)
Theorem vote_records_well_formed (votes : list dict) (r : VoteRecord)
    (Hr : r ∈ vote_list votes) :
  (∃ log rest, log ∈ votes ∧ vote_of log = Some r
     ∧ dict_get "topics" log = Some (JArr (JStr VOTED_TOPIC_0 :: rest)))
  ∧ (0 < v_voting_power r)%Q
  ∧ v_date r = dt_date (v_ts r)
  ∧ v_type r = "vote".
Proof.
  apply list_elem_of_omap in Hr as (log & Hlog & Hof).
  destruct (vote_of_inv log r Hof) as (st & dt & Hst & _ & _ & Hpos & ->).
  split.
  - unfold vote_extract in Hst.
    destruct (voted_topics log) as [topics|] eqn:Ht; [|done].
    destruct (voted_topics_inv log topics Ht) as (rest & -> & Hget).
    by exists log, rest.
  - simpl. split; [|done].
    apply Qlt_shift_div_l; [apply unit_scale_pos|]. by rewrite Qmult_0_l.
Qed.

Lemma nonempty_last {A : Type} (l : list A) :
  nonempty l = true → ∃ x, last l = Some x.
Proof.
  induction l as [|x [|y l] IH]; [done|by exists x|].
  intros _. destruct IH as [z Hz]; [done|]. exists z. by rewrite last_cons, Hz.
Qed.

(** X10: when the decoded form has a [weight] parameter the [data] field is
    never read: two logs that differ in [data] only give the same record,
    or are both skipped. *)
Theorem vote_of_decoded_ignores_data (log1 log2 : dict)
    (Hsame : ∀ k, k ≠ "data" → dict_get k log1 = dict_get k log2)
    (Hweight : has_weight_param log1 = true) :
  vote_of log1 = vote_of log2.
Proof.
  assert (voted_topics log1 = voted_topics log2) as Ht.
  { unfold voted_topics, dict_get_default. by rewrite (Hsame "topics"). }
  assert (decoded_params log1 = decoded_params log2) as Hd.
  { unfold decoded_params. by rewrite (Hsame "decoded"). }
  assert (item_instant log1 = item_instant log2) as Hi.
  { unfold item_instant.
    by rewrite (Hsame "timestamp"), (Hsame "block_timestamp"). }
  assert (∀ st, vote_instant log1 st = vote_instant log2 st) as Hv.
  { intros st. unfold vote_instant. by rewrite Hi. }
  assert (vote_extract log1 = vote_extract log2) as He.
  { unfold vote_extract, method_decoded. rewrite <- Ht, <- Hd.
    destruct (voted_topics log1) as [topics|]; [|done]. cbn [mbind option_bind].
    unfold has_weight_param, param_values in Hweight.
    destruct (decoded_params log1) as [ps|]; [|done]. cbn [mbind option_bind].
    change (default [] (Some ps)) with ps in Hweight.
    destruct (decode_params ps vote_vars_init) as [st1|] eqn:Hps; [|done].
    cbn [mbind option_bind].
    apply decode_params_weight in Hps.
    destruct (nonempty_last _ Hweight) as [v Hlast]. rewrite Hlast in Hps.
    destruct Hps as [_ Hf]. unfold method_hex. by rewrite Hf. }
  unfold vote_of. rewrite <- He.
  destruct (vote_extract log1) as [st|]; [|done]. cbn [mbind option_bind].
  by rewrite Hv.
Qed.

End Normalisers.

Section Tables.
Context `{B : Builtins}.

(** ** Counts and totals *)

Lemma sum_list_with_ext {A : Type} (f g : A → nat) (l : list A) :
  (∀ x, x ∈ l → f x = g x) → sum_list_with f l = sum_list_with g l.
Proof.
  induction l as [|x l IH]; intros H; [done|]. simpl.
  rewrite (H x), IH; [done| |left]. intros y Hy. apply H. by right.
Qed.

Lemma sum_list_with_indicator {K : Type} `{EqDecision K} (k0 : K) (ks : list K) :
  NoDup ks →
  sum_list_with (λ k, if decide (k0 = k) then 1 else 0)%nat ks
  = if decide (k0 ∈ ks) then 1%nat else 0%nat.
Proof.
  induction 1 as [|k ks Hk Hnd IH]; [done|]. simpl. rewrite IH.
  destruct (decide (k0 = k)) as [->|Hne].
  - rewrite decide_False by done. by rewrite decide_True by left.
  - destruct (decide (k0 ∈ ks)) as [Hin|Hin].
    + by rewrite decide_True by (by right).
    + rewrite decide_False; [done|]. intros Hin'.
      apply elem_of_cons in Hin' as [?|?]; done.
Qed.

(** Counting the records key by key over distinct keys that cover them
    counts every record once. *)
Lemma count_by_key {A K : Type} `{EqDecision K} (key : A → K) (l : list A)
    (ks : list K) :
  NoDup ks →
  (∀ r, r ∈ l → key r ∈ ks) →
  sum_list_with (λ k, length (filter (λ r, key r = k) l)) ks = length l.
Proof.
  intros Hnd. induction l as [|r l IH]; intros Hcover.
  - simpl. clear. by induction ks as [|k ks IHk].
  - simpl length. rewrite <- IH by (intros r' Hr'; apply Hcover; by right).
    rewrite (sum_list_with_ext _
               (λ k, (if decide (key r = k) then 1 else 0)
                     + length (filter (λ r0, key r0 = k) l))%nat).
    + assert (∀ (f g : K → nat) l',
                sum_list_with (λ k, f k + g k)%nat l'
                = (sum_list_with f l' + sum_list_with g l')%nat) as Hplus.
      { intros f g l'. induction l' as [|k' l' IHl]; [done|]. simpl.
        rewrite IHl. lia. }
      rewrite Hplus, sum_list_with_indicator by done.
      by rewrite decide_True by (apply Hcover; left).
    + intros k _. rewrite filter_cons. by destruct (decide (key r = k)).
Qed.

Lemma Qsum_indicator_key {K : Type} `{EqDecision K} (k0 : K) (v : Q) (ks : list K) :
  NoDup ks →
  (Qsum ((λ k, if decide (k0 = k) then v else 0%Q) <$> ks)
   == if decide (k0 ∈ ks) then v else 0)%Q.
Proof.
  induction 1 as [|k ks Hk Hnd IH]; [reflexivity|].
  rewrite fmap_cons, Qsum_cons, IH.
  destruct (decide (k0 = k)) as [->|Hne].
  - rewrite decide_False by done. rewrite decide_True by left. ring.
  - destruct (decide (k0 ∈ ks)) as [Hin|Hin].
    + rewrite decide_True by (by right). ring.
    + rewrite decide_False; [ring|]. intros Hin'.
      apply elem_of_cons in Hin' as [?|?]; done.
Qed.

(** Summing key by key over distinct keys that cover the records sums
    every record once. *)
Lemma Qsum_by_key {A K : Type} `{EqDecision K} (key : A → K) (val : A → Q)
    (l : list A) (ks : list K) :
  NoDup ks →
  (∀ r, r ∈ l → key r ∈ ks) →
  (Qsum ((λ k, Qsum (val <$> filter (λ r, key r = k) l)) <$> ks)
   == Qsum (val <$> l))%Q.
Proof.
  intros Hnd. induction l as [|r l IH]; intros Hcover.
  - simpl. apply Qsum_zero.
  - rewrite fmap_cons, Qsum_cons, <- IH by (intros r' Hr'; apply Hcover; by right).
    rewrite (Qsum_ext _ (λ k, (if decide (key r = k) then val r else 0)
                              + Qsum (val <$> filter (λ r0, key r0 = k) l))%Q).
    + rewrite Qsum_plus, Qsum_indicator_key by done.
      rewrite decide_True by (apply Hcover; left). reflexivity.
    + intros k _. rewrite filter_cons.
      destruct (decide (key r = k)); [reflexivity|ring].
Qed.

Lemma sum_list_with_fmap {X Y : Type} (f : Y → nat) (g : X → Y) (l : list X) :
  sum_list_with f (g <$> l) = sum_list_with (f ∘ g) l.
Proof. induction l as [|x l IH]; [done|]. csimpl. by rewrite IH. Qed.

Lemma sum_list_with_zip_with_left {X Y Z : Type} (mk : X → Y → Z) (f : Z → nat)
    (h : X → nat) (l : list X) (k : list Y) :
  (∀ x y, f (mk x y) = h x) →
  (length l ≤ length k)%nat →
  sum_list_with f (zip_with mk l k) = sum_list_with h l.
Proof.
  intros Hfh. revert k.
  induction l as [|x l IH]; intros [|y k] Hlen; simpl in *; try done; [lia|].
  rewrite Hfh. f_equal. apply IH. lia.
Qed.

Lemma dist_keys_NoDup (ll : list LockRecord) :
  NoDup (merge_sort key_order_le
           (remove_dups ((λ r, (l_cat r, l_order r)) <$> ll))).
Proof. rewrite merge_sort_Permutation. apply NoDup_remove_dups. Qed.

Lemma dist_keys_cover (ll : list LockRecord) (r : LockRecord) :
  r ∈ ll →
  (l_cat r, l_order r)
    ∈ merge_sort key_order_le (remove_dups ((λ r, (l_cat r, l_order r)) <$> ll)).
Proof.
  intros Hr. rewrite merge_sort_Permutation, elem_of_remove_dups.
  by apply (list_elem_of_fmap_2 (λ r, (l_cat r, l_order r))).
Qed.

(** X11: no record is lost or counted twice by the grouping: the daily
    lock counts add up to the number of lock records and the daily vote
    counts to the number of vote records; the transaction counts of the
    distribution add up to the number of lock records and its amounts to
    the total amount locked. *)
Theorem tables_count_every_record (ll : list LockRecord) (vl : list VoteRecord) :
  sum_list_with d_lock_count (df_main ll vl) = length ll
  ∧ sum_list_with d_vote_count (df_main ll vl) = length vl
  ∧ sum_list_with b_tx_count (dist_df ll) = length ll
  ∧ (Qsum (b_amount <$> dist_df ll) == Qsum (l_amount <$> ll))%Q.
Proof.
  assert (∀ (f : DailyRow → nat) (h : date → nat),
            (∀ d c, f (mkDaily d (locked_on ll d) (length (locks_on ll d))
                         (voted_on vl d) (length (votes_on vl d)) c.1 c.2) = h d) →
            sum_list_with f (df_main ll vl) = sum_list_with h (date_axis ll vl))
    as Hrows.
  { intros f h Hfh. rewrite df_main_rows.
    apply sum_list_with_zip_with_left; [done|].
    rewrite length_zip, !length_cumsum, !length_fmap. lia. }
  split; [|split; [|split]].
  - rewrite (Hrows d_lock_count (λ d, length (locks_on ll d))) by done.
    apply (count_by_key l_date ll).
    + apply NoDup_sorted_dates.
    + intros r Hr. apply elem_of_date_axis. left. by apply list_elem_of_fmap_2.
  - rewrite (Hrows d_vote_count (λ d, length (votes_on vl d))) by done.
    apply (count_by_key v_date vl).
    + apply NoDup_sorted_dates.
    + intros r Hr. apply elem_of_date_axis. right. by apply list_elem_of_fmap_2.
  - unfold dist_df. cbv zeta. rewrite sum_list_with_fmap.
    apply (count_by_key (λ r, (l_cat r, l_order r)) ll).
    + apply dist_keys_NoDup.
    + apply dist_keys_cover.
  - unfold dist_df. cbv zeta. rewrite <- list_fmap_compose.
    apply (Qsum_by_key (λ r, (l_cat r, l_order r)) l_amount ll).
    + apply dist_keys_NoDup.
    + apply dist_keys_cover.
Qed.

(** ** The distribution *)

#[local] Instance key_order_le_total : Total key_order_le.
Proof. intros a b. unfold key_order_le. lia. Qed.

#[local] Instance key_order_le_trans : Transitive key_order_le.
Proof. intros a b c. unfold key_order_le. lia. Qed.






(** ** The raw listings *)

#[local] Instance lock_newer_total : Total lock_newer.
Proof. intros a b. apply lex_le_total. Qed.

#[local] Instance lock_newer_trans : Transitive lock_newer.
Proof. intros a b c H1 H2. by apply (lex_le_trans _ _ _ H2 H1). Qed.

#[local] Instance vote_newer_total : Total vote_newer.
Proof. intros a b. apply lex_le_total. Qed.

#[local] Instance vote_newer_trans : Transitive vote_newer.
Proof. intros a b c H1 H2. by apply (lex_le_trans _ _ _ H2 H1). Qed.

(** X13: the raw listings hold exactly the records, each as often as it
    occurs, arranged so that no record comes before one of a later
    instant. *)
Theorem raw_listings_newest_first (ll : list LockRecord) (vl : list VoteRecord) :
  df_raw_locks ll ≡ₚ ll
  ∧ StronglySorted (λ a b, datetime_le (l_ts b) (l_ts a)) (df_raw_locks ll)
  ∧ df_raw_votes vl ≡ₚ vl
  ∧ StronglySorted (λ a b, datetime_le (v_ts b) (v_ts a)) (df_raw_votes vl).
Proof.
  split; [apply merge_sort_Permutation|].
  split; [apply (StronglySorted_merge_sort lock_newer)|].
  split; [apply merge_sort_Permutation|].
  apply (StronglySorted_merge_sort vote_newer).
Qed.

(** ** Running totals *)

Lemma Qsum_app (l k : list Q) : (Qsum (l ++ k) == Qsum l + Qsum k)%Q.
Proof.
  induction l as [|x l IH].
  - rewrite app_nil_l. change (Qsum []) with 0%Q. ring.
  - rewrite <- app_comm_cons, !Qsum_cons, IH. ring.
Qed.

Lemma Qsum_nonneg (l : list Q) : Forall (λ x, 0 <= x)%Q l → (0 <= Qsum l)%Q.
Proof.
  induction 1 as [|x l Hx _ IH]; [apply Qle_refl|].
  rewrite Qsum_cons. lra.
Qed.

Lemma cumsum_monotone (l : list Q) (i j : nat) (ci cj : Q) :
  Forall (λ x, 0 <= x)%Q l →
  (i ≤ j)%nat → cumsum l !! i = Some ci → cumsum l !! j = Some cj →
  (ci <= cj)%Q.
Proof.
  intros Hpos Hij Hi Hj.
  apply cumsum_lookup in Hi, Hj. rewrite Hi, Hj.
  replace (S j) with (S i + (j - i))%nat by lia.
  rewrite <- take_take_drop, Qsum_app.
  assert (0 <= Qsum (take (j - i) (drop (S i) l)))%Q; [|lra].
  apply Qsum_nonneg. rewrite Forall_forall in Hpos |- *. intros x Hx.
  apply Hpos. by apply (subseteq_drop (S i)), (subseteq_take (j - i)).
Qed.

Lemma vote_list_positive (votes : list dict) (r : VoteRecord) :
  r ∈ vote_list votes → (0 < v_voting_power r)%Q.
Proof.
  intros Hr. apply list_elem_of_omap in Hr as (log & _ & Hof).
  destruct (vote_of_inv log r Hof) as (st & dt & _ & _ & _ & Hpos & ->). simpl.
  apply Qlt_shift_div_l; [apply unit_scale_pos|]. by rewrite Qmult_0_l.
Qed.

(** X14: the cumulative voting power never decreases from one row of the
    daily table to a later one, because every vote record has a positive
    voting power; the cumulative locked amount does not either as long as
    no lock amount is negative. *)
Theorem cumulative_columns_ascend (ll : list LockRecord) (votes : list dict)
    (i j : nat) (ri rj : DailyRow)
    (Hij : (i ≤ j)%nat)
    (Hi : df_main ll (vote_list votes) !! i = Some ri)
    (Hj : df_main ll (vote_list votes) !! j = Some rj) :
  (d_cumulative_votes ri <= d_cumulative_votes rj)%Q
  ∧ (Forall (λ r, 0 <= l_amount r)%Q ll →
     (d_cumulative_locks ri <= d_cumulative_locks rj)%Q).
Proof.
  apply df_main_lookup in Hi as (di & cli & cvi & _ & Hcli & Hcvi & ->).
  apply df_main_lookup in Hj as (dj & clj & cvj & _ & Hclj & Hcvj & ->).
  simpl. split.
  - apply (cumsum_monotone
             (voted_on (vote_list votes) <$> date_axis ll (vote_list votes))
             i j cvi cvj); try done.
    rewrite Forall_fmap, Forall_forall. intros d _. simpl.
    apply Qsum_nonneg. rewrite Forall_fmap, Forall_forall. intros r Hr. simpl.
    apply list_elem_of_filter in Hr as [_ Hr].
    apply Qlt_le_weak. by apply (vote_list_positive votes).
  - intros Hpos.
    apply (cumsum_monotone (locked_on ll <$> date_axis ll (vote_list votes))
             i j cli clj); try done.
    rewrite Forall_fmap, Forall_forall. intros d _. simpl.
    apply Qsum_nonneg. rewrite Forall_fmap, Forall_forall. intros r Hr. simpl.
    apply list_elem_of_filter in Hr as [_ Hr].
    rewrite Forall_forall in Hpos. by apply Hpos.
Qed.

(** ** Order of the input *)

#[local] Existing Instances date_le_total date_le_trans date_le_antisym.

Lemma sorted_dates_ext (l l' : list date) :
  (∀ d, d ∈ l ↔ d ∈ l') → sorted_dates l = sorted_dates l'.
Proof.
  intros Hsame. apply (StronglySorted_unique date_le).
  - apply StronglySorted_sorted_dates.
  - apply StronglySorted_sorted_dates.
  - apply NoDup_Permutation; [apply NoDup_sorted_dates..|].
    intros d. by rewrite !elem_of_sorted_dates.
Qed.

Lemma date_axis_Permutation (ll ll' : list LockRecord) (vl vl' : list VoteRecord) :
  ll ≡ₚ ll' → vl ≡ₚ vl' → date_axis ll vl = date_axis ll' vl'.
Proof.
  intros Hl Hv. unfold date_axis. apply sorted_dates_ext. intros d.
  rewrite !elem_of_app, !daily_locks_dates, !daily_votes_dates,
    !elem_of_sorted_dates.
  by rewrite Hl, Hv.
Qed.

Lemma Qsum_Permutation (l l' : list Q) : l ≡ₚ l' → (Qsum l == Qsum l')%Q.
Proof.
  induction 1 as [|x k k' _ IH|x y k|k1 k2 k3 _ IH1 _ IH2].
  - reflexivity.
  - rewrite !Qsum_cons, IH. reflexivity.
  - rewrite !Qsum_cons. ring.
  - by rewrite IH1.
Qed.

Lemma Forall2_Qeq_fmap {A : Type} (f g : A → Q) (l : list A) :
  (∀ x, (f x == g x)%Q) → Forall2 Qeq (f <$> l) (g <$> l).
Proof.
  intros Hfg. induction l as [|x l IH]; [constructor|].
  rewrite !fmap_cons. by constructor.
Qed.

Lemma cumsum_from_Qeq (a a' : Q) (l l' : list Q) :
  (a == a')%Q → Forall2 Qeq l l' →
  Forall2 Qeq (cumsum_from a l) (cumsum_from a' l').
Proof.
  intros Ha Hl. revert a a' Ha.
  induction Hl as [|x x' k k' Hx _ IH]; intros a a' Ha; [constructor|].
  simpl. constructor; [by rewrite Ha, Hx|]. apply IH. by rewrite Ha, Hx.
Qed.

Lemma cumsum_Qeq (l l' : list Q) :
  Forall2 Qeq l l' → Forall2 Qeq (cumsum l) (cumsum l').
Proof.
  intros [|x x' k k' Hx Hk]; [constructor|]. simpl.
  constructor; [done|]. by apply cumsum_from_Qeq.
Qed.

Lemma fmap_zip_with_right {X Y Z W : Type} (mk : X → Y → Z) (g : Z → W)
    (h : Y → W) (l : list X) (k : list Y) :
  (∀ x y, g (mk x y) = h y) →
  (length k ≤ length l)%nat →
  g <$> zip_with mk l k = h <$> k.
Proof.
  intros Hgh. revert k.
  induction l as [|x l IH]; intros [|y k] Hlen; simpl in *; try done; [lia|].
  rewrite Hgh. f_equal. apply IH. lia.
Qed.

Lemma df_main_cumulative_locks (ll : list LockRecord) (vl : list VoteRecord) :
  d_cumulative_locks <$> df_main ll vl = cumsum (locked_on ll <$> date_axis ll vl).
Proof.
  rewrite df_main_rows, (fmap_zip_with_right _ _ fst); [|done|].
  - apply fst_zip. rewrite !length_cumsum, !length_fmap. lia.
  - rewrite length_zip, !length_cumsum, !length_fmap. lia.
Qed.

Lemma df_main_cumulative_votes (ll : list LockRecord) (vl : list VoteRecord) :
  d_cumulative_votes <$> df_main ll vl = cumsum (voted_on vl <$> date_axis ll vl).
Proof.
  rewrite df_main_rows, (fmap_zip_with_right _ _ snd); [|done|].
  - apply snd_zip. rewrite !length_cumsum, !length_fmap. lia.
  - rewrite length_zip, !length_cumsum, !length_fmap. lia.
Qed.

Lemma df_main_lock_counts (ll : list LockRecord) (vl : list VoteRecord) :
  d_lock_count <$> df_main ll vl
  = (λ d, length (locks_on ll d)) <$> date_axis ll vl.
Proof.
  rewrite df_main_rows. apply fmap_zip_with_left; [done|].
  rewrite length_zip, !length_cumsum, !length_fmap. lia.
Qed.

Lemma df_main_vote_counts (ll : list LockRecord) (vl : list VoteRecord) :
  d_vote_count <$> df_main ll vl
  = (λ d, length (votes_on vl d)) <$> date_axis ll vl.
Proof.
  rewrite df_main_rows. apply fmap_zip_with_left; [done|].
  rewrite length_zip, !length_cumsum, !length_fmap. lia.
Qed.

(** X17: the daily table does not depend on the order of the records: for
    rearranged collections it has the same dates and the same counts, and
    daily and cumulative amounts of the same value. *)
Theorem df_main_order_independent (ll ll' : list LockRecord)
    (vl vl' : list VoteRecord) (Hl : ll ≡ₚ ll') (Hv : vl ≡ₚ vl') :
  d_date <$> df_main ll vl = d_date <$> df_main ll' vl'
  ∧ d_lock_count <$> df_main ll vl = d_lock_count <$> df_main ll' vl'
  ∧ d_vote_count <$> df_main ll vl = d_vote_count <$> df_main ll' vl'
  ∧ Forall2 Qeq (d_amount <$> df_main ll vl) (d_amount <$> df_main ll' vl')
  ∧ Forall2 Qeq (d_voting_power <$> df_main ll vl)
      (d_voting_power <$> df_main ll' vl')
  ∧ Forall2 Qeq (d_cumulative_locks <$> df_main ll vl)
      (d_cumulative_locks <$> df_main ll' vl')
  ∧ Forall2 Qeq (d_cumulative_votes <$> df_main ll vl)
      (d_cumulative_votes <$> df_main ll' vl').
Proof.
  pose proof (date_axis_Permutation ll ll' vl vl' Hl Hv) as Haxis.
  assert (∀ d, locks_on ll d ≡ₚ locks_on ll' d) as Hlo.
  { intros d. unfold locks_on. by rewrite Hl. }
  assert (∀ d, votes_on vl d ≡ₚ votes_on vl' d) as Hvo.
  { intros d. unfold votes_on. by rewrite Hv. }
  assert (∀ d, (locked_on ll d == locked_on ll' d)%Q) as Hla.
  { intros d. unfold locked_on. apply Qsum_Permutation. by rewrite (Hlo d). }
  assert (∀ d, (voted_on vl d == voted_on vl' d)%Q) as Hva.
  { intros d. unfold voted_on. apply Qsum_Permutation. by rewrite (Hvo d). }
  rewrite !df_main_dates, !df_main_lock_counts, !df_main_vote_counts,
    !df_main_amounts, !df_main_voting_powers, !df_main_cumulative_locks,
    !df_main_cumulative_votes, <- Haxis.
  split; [done|].
  split; [apply list_fmap_ext; intros _ d _; by rewrite (Hlo d)|].
  split; [apply list_fmap_ext; intros _ d _; by rewrite (Hvo d)|].
  split; [by apply Forall2_Qeq_fmap|]. split; [by apply Forall2_Qeq_fmap|].
  split; apply cumsum_Qeq; by apply Forall2_Qeq_fmap.
Qed.

End Tables.

Section Runs.
Context `{B : Builtins}.

(** ** One run of the program *)

(** X15: a save that fails leaves the file as it was, and the tables and
    the balance text of a run are the same whether its save succeeds or
    fails. *)
Theorem failed_save_keeps_file (fuel : nat) (w : world) (f f' : store)
    (out : outputs) (bal : string)
    (Hrun : main fuel w f = Some (f', Some (out, bal))) :
  (write_ok w = false → f' = f)
  ∧ ∀ ok, ∃ f'',
      main fuel (mkWorld (lock_source w) (vote_source w) (balance_body w) ok) f
      = Some (f'', Some (out, bal)).
Proof.
  destruct (main_inv fuel w f f' _ Hrun)
    as (nl & nv & rl & rv & Hl & Hv & -> & Hres).
  split.
  - intros Hok. unfold save_data. rewrite Hok. by destruct (_ || _).
  - intros ok. eexists.
    rewrite (main_eq fuel (mkWorld _ _ _ ok) f nl nv rl rv Hl Hv).
    cbn [balance_body]. by rewrite <- Hres.
Qed.

(** X16: a run never drops or reorders what the file holds: the stored
    collections afterwards end with the collections loaded at the start,
    anything new standing in front; and collections that held no two items
    of the same key still hold none. *)
Theorem stored_items_are_kept (fuel : nat) (w : world) (f f' : store)
    (out : outputs) (bal : string)
    (Hrun : main fuel w f = Some (f', Some (out, bal))) :
  (load_data f).1 `suffix_of` (load_data f').1
  ∧ (load_data f).2 `suffix_of` (load_data f').2
  ∧ (NoDup (get_unique_id <$> (load_data f).1) →
     NoDup (get_unique_id <$> (load_data f').1))
  ∧ (NoDup (get_unique_id <$> (load_data f).2) →
     NoDup (get_unique_id <$> (load_data f').2)).
Proof.
  destruct (main_inv fuel w f f' _ Hrun)
    as (nl & nv & rl & rv & Hl & Hv & -> & _).
  unfold fetch_incremental in Hl, Hv.
  apply (fetch_loop_inv _ (list_to_set (get_unique_id <$> (load_data f).1)))
    in Hl as (_ & Hndl & Hfl & _);
    [|split; [set_solver|split; [constructor|by intros x Hx%elem_of_nil]]].
  apply (fetch_loop_inv _ (list_to_set (get_unique_id <$> (load_data f).2)))
    in Hv as (_ & Hndv & Hfv & _);
    [|split; [set_solver|split; [constructor|by intros x Hx%elem_of_nil]]].
  assert (∀ (new old : list dict),
            NoDup (get_unique_id <$> new) →
            (∀ x, x ∈ new →
               get_unique_id x ∉ (list_to_set (get_unique_id <$> old) : gset string)) →
            NoDup (get_unique_id <$> old) →
            NoDup (get_unique_id <$> (new ++ old))) as Hjoin.
  { intros new old Hn Hfresh Ho. rewrite fmap_app. apply NoDup_app.
    split; [done|]. split; [|done].
    intros k Hk Hk'. apply list_elem_of_fmap in Hk as (x & -> & Hx).
    apply (Hfresh x Hx). by apply elem_of_list_to_set. }
  destruct (nonempty nl || nonempty nv); [|done].
  unfold save_data. destruct (write_ok w); [|done]. simpl.
  split; [by apply suffix_app_r|]. split; [by apply suffix_app_r|].
  split; intros Hnd; by apply Hjoin.
Qed.

(** X19: a run whose save succeeds can be repeated against the same
    remote answers without effect: the second run leaves the file as the
    first one left it and produces the same tables and balance text. *)
Theorem run_twice_same_result (fuel : nat) (w : world) (f f1 : store)
    (out : outputs) (bal : string)
    (Hrun : main fuel w f = Some (f1, Some (out, bal)))
    (Hok : write_ok w = true) :
  main fuel w f1 = Some (f1, Some (out, bal)).
Proof.
  destruct (main_inv fuel w f f1 _ Hrun)
    as (nl & nv & rl & rv & Hl & Hv & Hf1 & Hres).
  pose proof (second_fetch_nothing_new fuel _ _ _ _ _ Hl) as Hl2.
  pose proof (second_fetch_nothing_new fuel _ _ _ _ _ Hv) as Hv2.
  destruct (nonempty nl || nonempty nv) eqn:Hnew.
  - unfold save_data in Hf1. rewrite Hok in Hf1. subst f1.
    rewrite (main_eq fuel w (Stored (nl ++ (load_data f).1) (nv ++ (load_data f).2))
               [] [] 1 1 Hl2 Hv2).
    cbn [nonempty orb app load_data fst snd]. by rewrite <- Hres.
  - subst f1. apply orb_false_iff in Hnew as [Hnl Hnv].
    destruct nl; [|done]. destruct nv; [|done].
    rewrite (main_eq fuel w f [] [] rl rv Hl Hv).
    cbn [nonempty orb app] in *. by rewrite <- Hres.
Qed.

End Runs.

(** ** The further properties on sample data *)

Lemma fetch_returns_only_unseen_witness :
  NoDup (get_unique_id <$>
           (Example.five "0xa1"
              ++ [Example.transfer "0xa2" 0; Example.transfer "0xa2" 1;
                  Example.transfer "0xa2" 3; Example.transfer "0xa2" 4])).
Proof.
  assert (fetch_incremental 4 (Example.paged_source Example.pages_3x5) ∅
            [Example.transfer "0xa2" 2]
          = Some (Example.five "0xa1"
                    ++ [Example.transfer "0xa2" 0; Example.transfer "0xa2" 1;
                        Example.transfer "0xa2" 3; Example.transfer "0xa2" 4],
                  2%nat)) as Hrun.
  { vm_compute. reflexivity. }
  exact (proj1 (fetch_returns_only_unseen _ _ _ _ _ _ Hrun)).
Defined.

Lemma repeated_page_ends_fetch_witness :
  ∃ r, (r ≤ 2)%nat
    ∧ fetch_incremental 7 Example.stuck_source ∅ []
      = Some (page_new (Example.five "0xa1") (list_to_set (get_unique_id <$> [])), r).
Proof.
  apply (repeated_page_ends_fetch 7 Example.stuck_source
           (mkpage (Example.five "0xa1") [("page", JInt 1)]) ∅ []).
  - intros n p. reflexivity.
  - discriminate.
  - lia.
Defined.

Lemma fetch_stops_at_first_known_page_witness :
  fetch_incremental 4 (Example.paged_source Example.pages_3x5) ∅
    [Example.transfer "0xa2" 2]
  = Some (concat [Example.five "0xa1"]
            ++ filter (λ x, get_unique_id x
                              ∉ (list_to_set
                                   (get_unique_id <$> [Example.transfer "0xa2" 2])
                                 : gset string))
                 (Example.five "0xa2"),
          2%nat).
Proof.
  apply (fetch_stops_at_first_known_page 4 _ ∅ _ [Example.five "0xa1"]
           (Example.five "0xa2") [Example.five "0xa3"]).
  - eexists. split; [reflexivity|]. simpl.
    eexists. split; [reflexivity|]. simpl.
    eexists. split; reflexivity.
  - repeat constructor. discriminate.
  - apply (bool_decide_unpack _). vm_compute. exact I.
  - intros x y Hx Hy. apply list_elem_of_singleton in Hy as ->.
    simpl in Hx. unfold Example.five in Hx.
    repeat (apply elem_of_cons in Hx as [->|Hx]); try (vm_compute; discriminate).
    by apply elem_of_nil in Hx.
  - exists (Example.transfer "0xa2" 2), (Example.transfer "0xa2" 2).
    split; [|split; [left|reflexivity]].
    unfold Example.five. do 2 right. left.
  - simpl. lia.
Defined.

Lemma get_unique_id_injective_witness :
  get_unique_id (Example.transfer "0xa1" 0) = get_unique_id (Example.transfer "0xa1" 1)
  ↔ "0xa1" = "0xa1" ∧ 0 = 1.
Proof.
  apply (get_unique_id_injective (Example.transfer "0xa1" 0)
           (Example.transfer "0xa1" 1) "0xa1" "0xa1" 0 1); reflexivity.
Defined.

Lemma second_fetch_finds_nothing_witness :
  fetch_incremental 4 (Example.paged_source Example.pages_3x5) ∅
    (concat Example.pages_3x5 ++ [])
  = Some ([], 1%nat).
Proof.
  assert (fetch_incremental 4 (Example.paged_source Example.pages_3x5) ∅ []
          = Some (concat Example.pages_3x5, 3%nat)) as Hrun.
  { vm_compute. reflexivity. }
  exact (second_fetch_finds_nothing _ _ _ _ _ _ Hrun).
Defined.

Lemma lock_records_well_formed_witness :
  ∃ r, r ∈ lock_list Example.sample_locks
    ∧ l_date r = dt_date (l_ts r) ∧ 1 ≤ l_order r ≤ 5.
Proof.
  assert (∃ r rest, lock_list Example.sample_locks = r :: rest) as (r & rest & E).
  { vm_compute. eexists _, _. reflexivity. }
  assert (r ∈ lock_list Example.sample_locks) as Hr by (rewrite E; left).
  destruct (lock_records_well_formed Example.sample_locks r Hr)
    as (_ & Hdate & _ & Horder & _).
  exists r. split; [exact Hr|]. split; [exact Hdate|exact Horder].
Defined.

Lemma size_bucket_monotone_witness :
  (size_bucket (1 # 2)).2 ≤ (size_bucket 3).2.
Proof.
  destruct (size_bucket_monotone (1 # 2) 3) as (_ & Hle & _).
  apply Hle. vm_compute. discriminate.
Defined.

Lemma parse_iso_ignores_fraction_and_zone_witness :
  parse_iso ("2024-03-01T10:20:30" +:+ "." +:+ "000000Z")
  = strptime_iso "2024-03-01T10:20:30".
Proof.
  destruct (parse_iso_ignores_fraction_and_zone "2024-03-01T10:20:30"
              eq_refl eq_refl) as [Hfrac _].
  apply Hfrac.
Defined.

Lemma lock_of_bare_or_nested_witness :
  lock_of Example.bare_tx = lock_of Example.nested_tx.
Proof.
  apply (lock_of_bare_or_nested Example.bare_tx Example.nested_tx
           (JStr "1000000000000000000") "0xabc"
           [("value", JStr "1000000000000000000")] [("hash", JStr "0xabc")]);
    try reflexivity.
  intros d'. discriminate.
Defined.

Lemma vote_records_well_formed_witness :
  ∃ r, r ∈ vote_list [Example.voted_log_hex] ∧ (0 < v_voting_power r)%Q.
Proof.
  assert (∃ r rest, vote_list [Example.voted_log_hex] = r :: rest)
    as (r & rest & E).
  { vm_compute. eexists _, _. reflexivity. }
  assert (r ∈ vote_list [Example.voted_log_hex]) as Hr by (rewrite E; left).
  destruct (vote_records_well_formed [Example.voted_log_hex] r Hr)
    as (_ & Hpos & _).
  exists r. split; [exact Hr|exact Hpos].
Defined.

Lemma vote_of_decoded_ignores_data_witness :
  vote_of (("data", JStr "0xdead") :: Example.voted_log_decoded)
  = vote_of (("data", JNull) :: Example.voted_log_decoded).
Proof.
  apply vote_of_decoded_ignores_data.
  - intros k Hk. cbn [dict_get].
    destruct (String.eqb k "data") eqn:E; [|reflexivity].
    apply String.eqb_eq in E. done.
  - vm_compute. reflexivity.
Defined.


Lemma cumulative_columns_ascend_witness :
  ∃ ri rj,
    df_main (lock_list Example.sample_locks) (vote_list [Example.voted_log_hex])
      !! 0%nat = Some ri
    ∧ df_main (lock_list Example.sample_locks) (vote_list [Example.voted_log_hex])
        !! 2%nat = Some rj
    ∧ (d_cumulative_votes ri <= d_cumulative_votes rj)%Q.
Proof.
  destruct (df_main (lock_list Example.sample_locks)
              (vote_list [Example.voted_log_hex]) !! 0%nat) as [ri|] eqn:Ei;
    [|vm_compute in Ei; discriminate].
  destruct (df_main (lock_list Example.sample_locks)
              (vote_list [Example.voted_log_hex]) !! 2%nat) as [rj|] eqn:Ej;
    [|vm_compute in Ej; discriminate].
  exists ri, rj. split; [done|]. split; [done|].
  apply (cumulative_columns_ascend (lock_list Example.sample_locks)
           [Example.voted_log_hex] 0 2 ri rj); [lia|done|done].
Defined.

Lemma df_main_order_independent_witness :
  d_date <$> df_main (lock_list Example.sample_locks) []
  = d_date <$> df_main (reverse (lock_list Example.sample_locks)) [].
Proof.
  apply df_main_order_independent; [|done].
  symmetry. apply reverse_Permutation.
Defined.

Lemma failed_save_keeps_file_witness :
  ∃ f' out bal,
    main 2 Example.busy_world NoFile = Some (f', Some (out, bal))
    ∧ ∃ f'', main 2 (mkWorld (lock_source Example.busy_world)
                       (vote_source Example.busy_world)
                       (balance_body Example.busy_world) false) NoFile
             = Some (f'', Some (out, bal)).
Proof.
  destruct (main 2 Example.busy_world NoFile) as [[f' [[out bal]|]]|] eqn:E;
    [|vm_compute in E; discriminate..].
  exists f', out, bal. split; [done|].
  exact (proj2 (failed_save_keeps_file 2 Example.busy_world NoFile f' out bal E) false).
Defined.

Lemma stored_items_are_kept_witness :
  ∃ f' out bal,
    main 2 Example.busy_world Example.quiet_store = Some (f', Some (out, bal))
    ∧ (load_data Example.quiet_store).1 `suffix_of` (load_data f').1.
Proof.
  destruct (main 2 Example.busy_world Example.quiet_store)
    as [[f' [[out bal]|]]|] eqn:E; [|vm_compute in E; discriminate..].
  exists f', out, bal. split; [done|].
  exact (proj1 (stored_items_are_kept 2 Example.busy_world Example.quiet_store
                  f' out bal E)).
Defined.

Lemma run_twice_same_result_witness :
  ∃ f1 out bal,
    main 2 Example.busy_world NoFile = Some (f1, Some (out, bal))
    ∧ main 2 Example.busy_world f1 = Some (f1, Some (out, bal)).
Proof.
  destruct (main 2 Example.busy_world NoFile) as [[f1 [[out bal]|]]|] eqn:E;
    [|vm_compute in E; discriminate..].
  exists f1, out, bal. split; [done|].
  exact (run_twice_same_result 2 Example.busy_world NoFile f1 out bal E eq_refl).
Defined.
